(** * SecureChat: session cryptography envelope, connection registry, process exit codes

    A shallow embedding of the server-side core of SecureChat:

    - [Crypto]: the session envelope of [crypto/encryption_manager.hpp]
      (sequence counters, AES-256-CTR, HMAC tag, replay guard, rekey);
    - [Registry]: [Server]'s client table and message fan-out
      ([core/server.cpp], [core/client_connection.hpp]);
    - [Process]: the control flow of [main] that decides the exit code
      ([main.cpp]).

    Unsigned 64-bit counters are integers in [Z] with the wrap-around
    written out ([wrap64]); byte vectors are lists of [ascii]. *)

From Stdlib Require Import ZArith Lia Bool List Ascii String Sorted.
From stdpp Require Import base option list gmap strings fin_maps.

Local Open Scope Z_scope.

(** ** Machine integers *)

Definition two64 : Z := 2 ^ 64.

(** The value a [uint64_t] (or 64-bit [size_t]) holds after an arithmetic
    operation whose mathematical result is [z]. *)
Definition wrap64 (z : Z) : Z := z mod two64.

(** ** Byte vectors *)

Definition bytes : Type := list ascii.

Definition xor_ascii (a b : ascii) : ascii :=
  match a, b with
  | Ascii a0 a1 a2 a3 a4 a5 a6 a7, Ascii b0 b1 b2 b3 b4 b5 b6 b7 =>
      Ascii (xorb a0 b0) (xorb a1 b1) (xorb a2 b2) (xorb a3 b3)
            (xorb a4 b4) (xorb a5 b5) (xorb a6 b6) (xorb a7 b7)
  end.

Definition or_ascii (a b : ascii) : ascii :=
  match a, b with
  | Ascii a0 a1 a2 a3 a4 a5 a6 a7, Ascii b0 b1 b2 b3 b4 b5 b6 b7 =>
      Ascii (a0 || b0) (a1 || b1) (a2 || b2) (a3 || b3)
            (a4 || b4) (a5 || b5) (a6 || b6) (a7 || b7)
  end.

Definition is_zero_ascii (a : ascii) : bool :=
  match a with
  | Ascii a0 a1 a2 a3 a4 a5 a6 a7 =>
      negb (a0 || a1 || a2 || a3 || a4 || a5 || a6 || a7)
  end.

(** Big-endian encoding of the low [8 * n] bits of [z] on [n] bytes. *)
Fixpoint be_encode (n : nat) (z : Z) : bytes :=
  match n with
  | O => []
  | S k => be_encode k (z / 256) ++ [ascii_of_N (Z.to_N (z mod 256))]
  end.

Definition be_decode (b : bytes) : Z :=
  fold_left (fun acc c => acc * 256 + Z.of_N (N_of_ascii c)) b 0.

Definition u64be (z : Z) : bytes := be_encode 8 z.

(** Comparison that inspects every byte whatever the data: the differences
    are OR-ed into one accumulator which is tested once at the end. *)
Fixpoint ct_accumulate (a b : bytes) (acc : ascii) : ascii :=
  match a, b with
  | x :: a', y :: b' => ct_accumulate a' b' (or_ascii acc (xor_ascii x y))
  | _, _ => acc
  end.

Definition constant_time_compare (a b : bytes) : bool :=
  (length a =? length b)%nat && is_zero_ascii (ct_accumulate a b zero).

(** * Session cryptography ([crypto/encryption_manager.hpp]) *)

Module Crypto.

Definition AES_KEY_SIZE : nat := 32.
Definition AES_IV_SIZE : nat := 16.
Definition AES_BLOCK_SIZE : nat := 16.
Definition HMAC_KEY_SIZE : nat := 32.
Definition HMAC_DIGEST_SIZE : nat := 32.

(** Milliseconds in [KEY_ROTATION_INTERVAL] (30 minutes). *)
Definition KEY_ROTATION_INTERVAL : Z := 30 * 60 * 1000.

Definition AESKey : Type := bytes.
Definition AESIv : Type := bytes.
Definition HMACKey : Type := bytes.

Record EncryptedMessage : Type := {
  ciphertext : bytes;
  iv : AESIv;
  hmac : bytes;
  timestamp : Z;
  sequence_number : Z
}.

(** The failures of the session layer; each one is fatal to the connection. *)
Inductive CryptoError : Type :=
  | KeyExchangeFailed
  | IntegrityFailed
  | ReplayDetected
  | DecryptFailed.

Record KeyPair : Type := {
  private_key : bytes;
  public_key : bytes
}.

(** The OpenSSL primitives the manager calls. They stay abstract: the block
    cipher, the keyed hash, the key-derivation function and the asymmetric
    key agreement. *)
Class Primitives : Type := {
  AES256 : AESKey -> bytes -> bytes;
  HMAC_SHA256 : HMACKey -> bytes -> bytes;
  KDF : bytes -> bytes;
  key_agreement : KeyPair -> bytes -> bytes
}.

(** Modelled from the spec: the state and the member functions of
    [EncryptionManager]; the repository holds the class declaration and its
    unit tests but no function bodies. The record has the header's fields.
    The receive counter is kept as the highest sequence number accepted so
    far, [None] while nothing has been accepted: the spec gives the counter
    as starting at 0 with 0 the first sequence expected, and rejects
    whatever is not above the highest accepted one.
    [expected_receive_sequence_] below is the header's view of the same
    state. *)
Record EncryptionManager : Type := {
  rsa_keypair_ : KeyPair;
  peer_public_key_ : bytes;
  session_key_ : AESKey;
  hmac_key_ : HMACKey;
  send_sequence_ : Z;
  highest_accepted_ : option Z;
  last_key_rotation_ : Z
}.


(** [z] is above every sequence number accepted so far. *)
Definition below (o : option Z) (z : Z) : Prop :=
  match o with
  | None => True
  | Some h => h < z
  end.


Section Manager.
Context `{Primitives}.

(** Modelled from the spec: the body of [aesEncrypt] and [aesDecrypt],
    AES-256 in counter mode over the plaintext. Block [i] of the key stream
    is the encryption of the IV advanced by [i], read as a 128-bit
    big-endian counter; encryption and decryption are the same XOR. *)
Definition ctr_block (iv0 : AESIv) (i : nat) : bytes :=
  be_encode AES_BLOCK_SIZE (be_decode iv0 + Z.of_nat i).

Definition keystream_byte (key : AESKey) (iv0 : AESIv) (j : nat) : ascii :=
  nth (j mod AES_BLOCK_SIZE)%nat
      (AES256 key (ctr_block iv0 (j / AES_BLOCK_SIZE)%nat)) zero.

Fixpoint ctr_xor (key : AESKey) (iv0 : AESIv) (j : nat) (data : bytes) : bytes :=
  match data with
  | [] => []
  | b :: rest => xor_ascii b (keystream_byte key iv0 j) :: ctr_xor key iv0 (S j) rest
  end.

Definition aesEncrypt (m : EncryptionManager) (plaintext : bytes) (iv0 : AESIv) : bytes :=
  ctr_xor (session_key_ m) iv0 0 plaintext.

Definition aesDecrypt (m : EncryptionManager) (ct : bytes) (iv0 : AESIv) : bytes :=
  ctr_xor (session_key_ m) iv0 0 ct.

(** Modelled from the spec: the bodies of [computeHMAC] and [verifyHMAC],
    HMAC-SHA256 under the session's HMAC key and a constant-time comparison
    of the recomputed tag. *)
Definition computeHMAC (m : EncryptionManager) (data : bytes) : bytes :=
  HMAC_SHA256 (hmac_key_ m) data.

Definition verifyHMAC (m : EncryptionManager) (data tag : bytes) : bool :=
  constant_time_compare (computeHMAC m data) tag.

(** The bytes the tag covers: sequence, timestamp, IV, ciphertext. *)
Definition mac_input (seq ts : Z) (iv0 : AESIv) (ct : bytes) : bytes :=
  u64be seq ++ u64be ts ++ iv0 ++ ct.

Definition envelope_mac_input (e : EncryptedMessage) : bytes :=
  mac_input (sequence_number e) (timestamp e) (iv e) (ciphertext e).

(** Modelled from the spec: a manager before any key exchange; both
    counters start at 0 (the header's initialisers). *)
Definition initialize (kp : KeyPair) (now : Z) : EncryptionManager :=
  {| rsa_keypair_ := kp; peer_public_key_ := [];
     session_key_ := []; hmac_key_ := [];
     send_sequence_ := 0; highest_accepted_ := None;
     last_key_rotation_ := now |}.

(** Modelled from the spec: the body of [deriveSessionKeys]. The KDF output
    is cut into the 256-bit confidentiality key and the 256-bit HMAC key. *)
Definition deriveSessionKeys (shared_secret : bytes) (m : EncryptionManager)
  : EncryptionManager :=
  let okm := KDF shared_secret in
  {| rsa_keypair_ := rsa_keypair_ m; peer_public_key_ := peer_public_key_ m;
     session_key_ := take AES_KEY_SIZE okm;
     hmac_key_ := take HMAC_KEY_SIZE (drop AES_KEY_SIZE okm);
     send_sequence_ := send_sequence_ m;
     highest_accepted_ := highest_accepted_ m;
     last_key_rotation_ := last_key_rotation_ m |}.

(** Modelled from the spec: the body of [exchangeKeys], key agreement with
    the peer's public key followed by the derivation of the session keys. *)
Definition exchangeKeys (peer : bytes) (m : EncryptionManager) : EncryptionManager :=
  deriveSessionKeys (key_agreement (rsa_keypair_ m) peer)
    {| rsa_keypair_ := rsa_keypair_ m; peer_public_key_ := peer;
       session_key_ := session_key_ m; hmac_key_ := hmac_key_ m;
       send_sequence_ := send_sequence_ m;
       highest_accepted_ := highest_accepted_ m;
       last_key_rotation_ := last_key_rotation_ m |}.


Definition rotation_due (now : Z) (m : EncryptionManager) : bool :=
  KEY_ROTATION_INTERVAL <=? now - last_key_rotation_ m.

Definition set_send_sequence (s : Z) (m : EncryptionManager) : EncryptionManager :=
  {| rsa_keypair_ := rsa_keypair_ m; peer_public_key_ := peer_public_key_ m;
     session_key_ := session_key_ m; hmac_key_ := hmac_key_ m;
     send_sequence_ := s; highest_accepted_ := highest_accepted_ m;
     last_key_rotation_ := last_key_rotation_ m |}.

Definition set_highest_accepted (s : Z) (m : EncryptionManager) : EncryptionManager :=
  {| rsa_keypair_ := rsa_keypair_ m; peer_public_key_ := peer_public_key_ m;
     session_key_ := session_key_ m; hmac_key_ := hmac_key_ m;
     send_sequence_ := send_sequence_ m; highest_accepted_ := Some s;
     last_key_rotation_ := last_key_rotation_ m |}.

(** Modelled from the spec: the body of [encrypt]. [iv0] is the 16-byte IV
    drawn at random for this message and [now] the clock reading; the
    envelope carries the current send sequence, which is then incremented.
    The path has no failure, so the pointer returned is never null. *)
Definition encrypt (iv0 : AESIv) (now : Z) (plaintext : string) (m : EncryptionManager)
  : EncryptedMessage * EncryptionManager :=
  let seq := send_sequence_ m in
  let ct := aesEncrypt m (list_ascii_of_string plaintext) iv0 in
  let tag := computeHMAC m (mac_input seq now iv0 ct) in
  ({| ciphertext := ct; iv := iv0; hmac := tag;
      timestamp := now; sequence_number := seq |},
   set_send_sequence (wrap64 (seq + 1)) m).

(** Modelled from the spec: the replay guard of [decrypt], [true] when
    [seq] is not above the highest sequence accepted so far. *)
Definition replayed (m : EncryptionManager) (seq : Z) : bool :=
  match highest_accepted_ m with
  | None => false
  | Some h => seq <=? h
  end.

(** Modelled from the spec: the body of [decrypt]. Replay guard first, then
    the tag, then the cipher; the receive state advances only on success.
    Counter mode takes any byte string, so [DecryptFailed] has no occasion
    on this path. *)
Definition decrypt (e : EncryptedMessage) (m : EncryptionManager)
  : (CryptoError + string) * EncryptionManager :=
  if replayed m (sequence_number e) then (inl ReplayDetected, m)
  else if negb (verifyHMAC m (envelope_mac_input e) (hmac e)) then (inl IntegrityFailed, m)
  else (inr (string_of_list_ascii (aesDecrypt m (ciphertext e) (iv e))),
        set_highest_accepted (sequence_number e) m).

(** Sequence numbers of the envelopes [decrypt] accepts when [es] is
    presented in order, whatever happens to the rejected ones. *)
Fixpoint accepted_sequences (es : list EncryptedMessage) (m : EncryptionManager)
  : list Z :=
  match es with
  | [] => []
  | e :: rest =>
      match decrypt e m with
      | (inr _, m') => sequence_number e :: accepted_sequences rest m'
      | (inl _, m') => accepted_sequences rest m'
      end
  end.

(** Messages encrypted and decrypted one after the other on one manager,
    as the unit tests do; each comes with the IV drawn for it and the clock
    reading. *)
Fixpoint roundtrips (msgs : list (AESIv * Z * string)) (m : EncryptionManager)
  : list (CryptoError + string) :=
  match msgs with
  | [] => []
  | (iv0, now, plaintext) :: rest =>
      let sent := encrypt iv0 now plaintext m in
      let received := decrypt sent.1 sent.2 in
      received.1 :: roundtrips rest received.2
  end.

(** Modelled from the spec: the receive side of a connection, whose code is
    not in the repository either. A crypto failure terminates the
    connection and nothing is decrypted afterwards. *)
Inductive Receiver : Type :=
  | Live (m : EncryptionManager)
  | Terminated (reason : CryptoError).

Definition receive (e : EncryptedMessage) (r : Receiver) : Receiver * option string :=
  match r with
  | Terminated reason => (Terminated reason, None)
  | Live m =>
      match decrypt e m with
      | (inl err, _) => (Terminated err, None)
      | (inr p, m') => (Live m', Some p)
      end
  end.

End Manager.

(** A small instance of the primitives on which the definitions can be run. *)
Definition demo_primitives : Primitives :=
  {| AES256 := fun key block => take 16 (map (xor_ascii (hd zero key)) (rev block));
     HMAC_SHA256 := fun key data => key ++ data;
     KDF := fun secret => secret ++ secret;
     key_agreement := fun kp peer => private_key kp ++ peer |}.

Definition demo_keypair : KeyPair :=
  {| private_key := list_ascii_of_string "responder-private";
     public_key := list_ascii_of_string "responder-public" |}.


(** A session on [demo_primitives] right after the key exchange. *)
Definition demo_session : EncryptionManager :=
  @exchangeKeys demo_primitives (list_ascii_of_string "initiator-public")
    (initialize demo_keypair 0).

Definition demo_iv (c : ascii) : AESIv := repeat c AES_IV_SIZE.


(** An envelope with a sequence number never seen before and a tag that is
    not the session's tag for it. *)
Definition forged_envelope : EncryptedMessage :=
  {| ciphertext := list_ascii_of_string "hello"; iv := demo_iv "i";
     hmac := []; timestamp := 0; sequence_number := 5 |}.

(** The first envelope of [demo_session], and the session once it has
    accepted that envelope. *)
Definition first_envelope : EncryptedMessage :=
  (@encrypt demo_primitives (demo_iv "i") 1700000000000 "hello" demo_session).1.

Definition demo_session_after_first : EncryptionManager :=
  (@decrypt demo_primitives first_envelope demo_session).2.

End Crypto.

(** * Client table and fan-out ([core/server.cpp]) *)

Module Registry.

Inductive ClientState : Type :=
  | CONNECTING
  | AUTHENTICATING
  | AUTHENTICATED
  | DISCONNECTING
  | DISCONNECTED.

(** The part of a [ClientConnection] that [Server] reads, with the members
    the class declares. [username_] is the exception, modelled from the
    spec (the principal of an authenticated connection): the class declares
    no such member and no [Server] operation reads it; it is carried so that
    statements about user names can be written. *)
Record ClientConnection : Type := {
  socket_fd_ : Z;
  client_id_ : Z;
  state_ : ClientState;
  messages_sent_ : Z;
  messages_received_ : Z;
  username_ : string
}.

Definition getId (c : ClientConnection) : Z := client_id_ c.
Definition getState (c : ClientConnection) : ClientState := state_ c.

Definition isAuthenticated (c : ClientConnection) : bool :=
  match state_ c with
  | AUTHENTICATED => true
  | _ => false
  end.

Definition isConnected (c : ClientConnection) : bool :=
  match state_ c with
  | DISCONNECTED => false
  | DISCONNECTING => false
  | _ => true
  end.

(** A job handed to the thread pool: the captured connection and the copy of
    the message that [sendEncryptedMessage] will be called with. *)
Record Task : Type := {
  task_client : ClientConnection;
  task_message : string
}.

(** The calls made on the metrics collector, in order (the collector itself
    is outside the repository's sources). *)
Inductive MetricEvent : Type :=
  | IncrementCounter (name : string)
  | SetGauge (name : string) (value : Z).

(** [metrics_] is [None] when metrics are disabled (a null pointer);
    [thread_pool_] lists the jobs enqueued so far, oldest first. Log lines
    are not modelled. *)
Record Server : Type := {
  clients_ : gmap Z ClientConnection;
  next_client_id_ : Z;
  total_messages_sent_ : Z;
  total_messages_received_ : Z;
  thread_pool_ : list Task;
  metrics_ : option (list MetricEvent)
}.

Definition new_server (metrics_enabled : bool) : Server :=
  {| clients_ := ∅; next_client_id_ := 1;
     total_messages_sent_ := 0; total_messages_received_ := 0;
     thread_pool_ := [];
     metrics_ := if metrics_enabled then Some [] else None |}.

Definition set_clients (cl : gmap Z ClientConnection) (s : Server) : Server :=
  {| clients_ := cl; next_client_id_ := next_client_id_ s;
     total_messages_sent_ := total_messages_sent_ s;
     total_messages_received_ := total_messages_received_ s;
     thread_pool_ := thread_pool_ s; metrics_ := metrics_ s |}.

Definition set_next_client_id (n : Z) (s : Server) : Server :=
  {| clients_ := clients_ s; next_client_id_ := n;
     total_messages_sent_ := total_messages_sent_ s;
     total_messages_received_ := total_messages_received_ s;
     thread_pool_ := thread_pool_ s; metrics_ := metrics_ s |}.

Definition set_total_sent (n : Z) (s : Server) : Server :=
  {| clients_ := clients_ s; next_client_id_ := next_client_id_ s;
     total_messages_sent_ := n;
     total_messages_received_ := total_messages_received_ s;
     thread_pool_ := thread_pool_ s; metrics_ := metrics_ s |}.

(** [thread_pool_->enqueue] for each job of [ts], in order. *)
Definition enqueue_all (ts : list Task) (s : Server) : Server :=
  {| clients_ := clients_ s; next_client_id_ := next_client_id_ s;
     total_messages_sent_ := total_messages_sent_ s;
     total_messages_received_ := total_messages_received_ s;
     thread_pool_ := thread_pool_ s ++ ts; metrics_ := metrics_ s |}.

(** [if (metrics_) { ... }]: the calls [evs] reach the collector only when
    there is one. *)
Definition report (evs : list MetricEvent) (s : Server) : Server :=
  {| clients_ := clients_ s; next_client_id_ := next_client_id_ s;
     total_messages_sent_ := total_messages_sent_ s;
     total_messages_received_ := total_messages_received_ s;
     thread_pool_ := thread_pool_ s;
     metrics_ := match metrics_ s with
                 | Some log => Some (log ++ evs)
                 | None => None
                 end |}.

Definition clients_active (s : Server) : Z := Z.of_nat (size (clients_ s)).

(** [client] is [None] for a null pointer. *)
Definition addClient (client : option ClientConnection) (s : Server) : Server :=
  match client with
  | None => s
  | Some c =>
      let s1 := set_clients (<[getId c := c]> (clients_ s)) s in
      report [IncrementCounter "clients_connected_total";
              SetGauge "clients_active" (clients_active s1)] s1
  end.

Definition removeClient (client_id : Z) (s : Server) : Server :=
  match clients_ s !! client_id with
  | Some _ =>
      let s1 := set_clients (delete client_id (clients_ s)) s in
      report [IncrementCounter "clients_disconnected_total";
              SetGauge "clients_active" (clients_active s1)] s1
  | None => s
  end.

Definition getClient (client_id : Z) (s : Server) : option ClientConnection :=
  clients_ s !! client_id.

(** The jobs one broadcast enqueues. The table is an [unordered_map], so the
    order in which the entries are visited is whatever the table gives;
    [map_to_list] plays that part. *)
Definition broadcast_tasks (message : string) (sender_id : Z) (s : Server) : list Task :=
  omap (fun entry : Z * ClientConnection =>
          if negb (entry.1 =? sender_id) && isAuthenticated entry.2
          then Some {| task_client := entry.2; task_message := message |}
          else None)
       (map_to_list (clients_ s)).

(** [clients_.size() - (sender_id ? 1 : 0)] is computed in [size_t] and added
    to the 64-bit counter; both steps wrap. *)
Definition broadcastMessage (message : string) (sender_id : Z) (s : Server) : Server :=
  let s1 := enqueue_all (broadcast_tasks message sender_id s) s in
  let n := wrap64 (clients_active s - (if sender_id =? 0 then 0 else 1)) in
  let s2 := set_total_sent (wrap64 (total_messages_sent_ s1 + n)) s1 in
  report [IncrementCounter "messages_broadcast_total"] s2.

(** [sendToClient] returns [void]: the [unit] component is all the caller
    gets back, the other one is the server afterwards. *)
Definition sendToClient (client_id : Z) (message : string) (s : Server) : unit * Server :=
  match getClient client_id s with
  | Some client =>
      if isAuthenticated client then
        let s1 := enqueue_all [{| task_client := client; task_message := message |}] s in
        let s2 := set_total_sent (wrap64 (total_messages_sent_ s1 + 1)) s1 in
        (tt, report [IncrementCounter "messages_sent_total"] s2)
      else (tt, s)
  | None => (tt, s)
  end.

Definition getConnectedClientsCount (s : Server) : nat := size (clients_ s).

(** First pass of the cleanup: the ids whose connection is not connected. *)
Definition disconnected_clients (s : Server) : list Z :=
  omap (fun entry : Z * ClientConnection =>
          if negb (isConnected entry.2) then Some entry.1 else None)
       (map_to_list (clients_ s)).

(** Second pass: [removeClient] for each collected id. *)
Definition cleanupDisconnectedClients (s : Server) : Server :=
  fold_left (fun acc client_id => removeClient client_id acc)
            (disconnected_clients s) s.

(** A connection as [handleClientConnection] creates it. *)
Definition new_connection (socket_fd client_id : Z) : ClientConnection :=
  {| socket_fd_ := socket_fd; client_id_ := client_id; state_ := CONNECTING;
     messages_sent_ := 0; messages_received_ := 0; username_ := "" |}.

(** [initialize_ok] is the result of [client->initialize()]. *)
Definition handleClientConnection (client_socket : Z) (initialize_ok : bool) (s : Server)
  : Server :=
  let client_id := next_client_id_ s in
  let s1 := set_next_client_id (wrap64 (client_id + 1)) s in
  if initialize_ok
  then addClient (Some (new_connection client_socket client_id)) s1
  else s1.

(** [true] when [sendToClient] has something to do. *)
Definition deliverable (client_id : Z) (s : Server) : bool :=
  match getClient client_id s with
  | Some client => isAuthenticated client
  | None => false
  end.

(** A connection's own threads move it through its states; the table holds
    a pointer to it, so the change shows in the entry. The id is constant. *)
Definition set_connection (st : ClientState) (user : string) (c : ClientConnection)
  : ClientConnection :=
  {| socket_fd_ := socket_fd_ c; client_id_ := client_id_ c; state_ := st;
     messages_sent_ := messages_sent_ c;
     messages_received_ := messages_received_ c; username_ := user |}.

Definition connection_changed (client_id : Z) (st : ClientState) (user : string)
    (s : Server) : Server :=
  set_clients (alter (set_connection st user) client_id (clients_ s)) s.

(** One operation on the server. [addClient] is public, so any connection
    may be handed to it, not only the ones [handleClientConnection] makes;
    [step_connection] is a connection changing state on its own. *)
Inductive step : Server -> Server -> Prop :=
  | step_accept sock ok s : step s (handleClientConnection sock ok s)
  | step_add c s : step s (addClient c s)
  | step_remove client_id s : step s (removeClient client_id s)
  | step_broadcast message sender_id s : step s (broadcastMessage message sender_id s)
  | step_send client_id message s : step s (sendToClient client_id message s).2
  | step_cleanup s : step s (cleanupDisconnectedClients s)
  | step_connection client_id st user s : step s (connection_changed client_id st user s).

Inductive reachable : Server -> Prop :=
  | reachable_new metrics_enabled : reachable (new_server metrics_enabled)
  | reachable_step s s' : reachable s -> step s s' -> reachable s'.

(** Every entry is filed under the id of its connection. *)
Definition keyed_by_id (s : Server) : Prop :=
  forall i c, clients_ s !! i = Some c -> getId c = i.

Definition connection (client_id : Z) (st : ClientState) (user : string)
  : ClientConnection :=
  set_connection st user (new_connection 0 client_id).

(** Two authenticated connections of the same user, registered one after
    the other. *)
Definition alice_first : ClientConnection := connection 1 AUTHENTICATED "alice".
Definition alice_again : ClientConnection := connection 2 AUTHENTICATED "alice".

Definition alice_twice : Server :=
  addClient (Some alice_again) (addClient (Some alice_first) (new_server true)).

(** One authenticated connection, one still connecting, one draining. *)
Definition mixed_server : Server :=
  addClient (Some (connection 3 DISCONNECTING "carol"))
    (addClient (Some (connection 2 CONNECTING ""))
       (addClient (Some alice_first) (new_server true))).

End Registry.

(** * Exit code of the server process ([main.cpp]) *)

Module Process.

(** The two handlers of [main]: [catch (const std::exception&)] and
    [catch (...)]. *)
Inductive Thrown : Type :=
  | StdException
  | UnknownException.

Inductive Call (A : Type) : Type :=
  | Returns (a : A)
  | Throws (t : Thrown).
Arguments Returns {A} a.
Arguments Throws {A} t.

(** How the endless loop at the end of [main] stops, if it does: a handled
    signal (SIGINT, SIGTERM, and SIGHUP, SIGQUIT where they exist) runs
    [signalHandler], which shuts the server down and calls [std::exit(0)]. *)
Inductive LoopEnd : Type :=
  | Signalled (signal : Z)
  | LoopThrows (t : Thrown)
  | NeverEnds.

(** What the process does in the end. [Aborted]: an exception left [main]
    (the argument loop is outside the [try] block), so [std::terminate]
    runs. *)
Inductive Outcome : Type :=
  | ExitCode (code : Z)
  | Aborted
  | Running.

Record Options : Type := {
  config_file : string;
  port : Z;
  threads : Z;
  log_level : string;
  daemon_mode : bool
}.

Definition default_options : Options :=
  {| config_file := "config/server.json"; port := 8080; threads := 0;
     log_level := "info"; daemon_mode := false |}.

(** Everything [main] calls and does not define, and the signals it may
    get. [stoi] is [None] when [std::stoi] throws. [server_initialize] is
    the construction of the server from the configuration, with the port and
    the thread count of the command line written over it, followed by
    [Server::initialize]. The handlers are installed right after it, before
    [Server::start] is called: [signal_while_starting] is a handled signal
    that arrives from then on and before [Server::start] has returned or
    thrown, [main_loop] says what happens once the loop runs. A signal that
    arrives before the handlers are installed is not the program's to
    handle and is left out. *)
Record Environment : Type := {
  stoi : string -> option Z;
  setup_logging : Options -> Call unit;
  loadFromFile : string -> Call bool;
  server_initialize : Options -> Call bool;
  signal_while_starting : option Z;
  server_start : Call unit;
  main_loop : LoopEnd
}.

Inductive Parsed : Type :=
  | Continue (o : Options)
  | Stop (r : Outcome).

Definition is_flag (arg short long : string) : bool :=
  String.eqb arg short || String.eqb arg long.

(** An order to print the help or the version. *)
Definition asks_for_help_or_version (arg : string) : bool :=
  is_flag arg "-h" "--help" || is_flag arg "-v" "--version".




(** The loop over [argv[1..]]. *)
Fixpoint parse_args (env : Environment) (args : list string) (o : Options) : Parsed :=
  match args with
  | [] => Continue o
  | arg :: rest =>
      if is_flag arg "-h" "--help" then Stop (ExitCode 0)
      else if is_flag arg "-v" "--version" then Stop (ExitCode 0)
      else if is_flag arg "-c" "--config" then
        match rest with
        | file :: rest' =>
            parse_args env rest'
              {| config_file := file; port := port o; threads := threads o;
                 log_level := log_level o; daemon_mode := daemon_mode o |}
        | [] => Stop (ExitCode 1)
        end
      else if is_flag arg "-p" "--port" then
        match rest with
        | text :: rest' =>
            match stoi env text with
            | Some n =>
                parse_args env rest'
                  {| config_file := config_file o; port := n; threads := threads o;
                     log_level := log_level o; daemon_mode := daemon_mode o |}
            | None => Stop Aborted
            end
        | [] => Stop (ExitCode 1)
        end
      else if is_flag arg "-t" "--threads" then
        match rest with
        | text :: rest' =>
            match stoi env text with
            | Some n =>
                parse_args env rest'
                  {| config_file := config_file o; port := port o; threads := n;
                     log_level := log_level o; daemon_mode := daemon_mode o |}
            | None => Stop Aborted
            end
        | [] => Stop (ExitCode 1)
        end
      else if is_flag arg "-l" "--log-level" then
        match rest with
        | level :: rest' =>
            parse_args env rest'
              {| config_file := config_file o; port := port o; threads := threads o;
                 log_level := level; daemon_mode := daemon_mode o |}
        | [] => Stop (ExitCode 1)
        end
      else if is_flag arg "-d" "--daemon" then
        parse_args env rest
          {| config_file := config_file o; port := port o; threads := threads o;
             log_level := log_level o; daemon_mode := true |}
      else Stop (ExitCode 1)
  end.

(** The [try] block of [main]; both [catch] handlers return 1, and
    [signalHandler] exits with 0 from the moment it is installed. *)
Definition run_server (env : Environment) (o : Options) : Outcome :=
  match setup_logging env o with
  | Throws _ => ExitCode 1
  | Returns _ =>
      match loadFromFile env (config_file o) with
      | Throws _ => ExitCode 1
      | Returns false => ExitCode 1
      | Returns true =>
          match server_initialize env o with
          | Throws _ => ExitCode 1
          | Returns false => ExitCode 1
          | Returns true =>
              match signal_while_starting env with
              | Some _ => ExitCode 0
              | None =>
                  match server_start env with
                  | Throws _ => ExitCode 1
                  | Returns _ =>
                      match main_loop env with
                      | Signalled _ => ExitCode 0
                      | LoopThrows _ => ExitCode 1
                      | NeverEnds => Running
                      end
                  end
              end
          end
      end
  end.

(** [args] is [argv] without the program name. *)
Definition main (env : Environment) (args : list string) : Outcome :=
  match parse_args env args default_options with
  | Stop r => r
  | Continue o => run_server env o
  end.

(** An environment in which the configuration loads or not, the server
    starts or not, no signal arrives while it starts, and the loop ends as
    [loop] says. *)
Definition example_environment (config_ok started : bool) (loop : LoopEnd)
  : Environment :=
  {| stoi := fun _ => Some 8080;
     setup_logging := fun _ => Returns tt;
     loadFromFile := fun _ => Returns config_ok;
     server_initialize := fun _ => Returns true;
     signal_while_starting := None;
     server_start := if started then Returns tt else Throws StdException;
     main_loop := loop |}.

(** An environment in which SIGTERM arrives while [Server::start] runs, and
    [Server::start] would have thrown. *)
Definition interrupted_start : Environment :=
  {| stoi := fun _ => Some 8080;
     setup_logging := fun _ => Returns tt;
     loadFromFile := fun _ => Returns true;
     server_initialize := fun _ => Returns true;
     signal_while_starting := Some 15;
     server_start := Throws StdException;
     main_loop := NeverEnds |}.

(** A run that starts up; [loop] says how it ends. *)
Definition healthy_start (loop : LoopEnd) : Environment :=
  example_environment true true loop.

End Process.

(** * More of the server: id allocation, metrics, life cycle ([core/server.cpp]) *)

Module Serving.
Import Registry.

(** How often the counter [name] has been incremented in a metrics log. *)
Fixpoint count_increments (name : string) (log : list MetricEvent) : nat :=
  match log with
  | [] => O
  | IncrementCounter n :: rest =>
      if String.eqb n name then S (count_increments name rest)
      else count_increments name rest
  | SetGauge _ _ :: rest => count_increments name rest
  end.

(** The last value reported for the gauge [name], if any. *)
Fixpoint last_gauge (name : string) (log : list MetricEvent) : option Z :=
  match log with
  | [] => None
  | SetGauge n v :: rest =>
      match last_gauge name rest with
      | Some v' => Some v'
      | None => if String.eqb n name then Some v else None
      end
  | IncrementCounter _ :: rest => last_gauge name rest
  end.

(** The states the server's own code reaches: [addClient] is called by
    [handleClientConnection] only, and the id counter has not wrapped. *)
Inductive served : Server -> Prop :=
  | served_new metrics_enabled : served (new_server metrics_enabled)
  | served_accept sock ok s :
      served s -> next_client_id_ s + 1 < two64 ->
      served (handleClientConnection sock ok s)
  | served_remove client_id s : served s -> served (removeClient client_id s)
  | served_broadcast message sender_id s :
      served s -> served (broadcastMessage message sender_id s)
  | served_send client_id message s :
      served s -> served (sendToClient client_id message s).2
  | served_cleanup s : served s -> served (cleanupDisconnectedClients s)
  | served_connection client_id st user s :
      served s -> served (connection_changed client_id st user s).

(** Every id in the table has been handed out already. *)
Definition ids_fresh (s : Server) : Prop :=
  1 <= next_client_id_ s /\
  forall i c, clients_ s !! i = Some c -> 1 <= i < next_client_id_ s.

(** The metrics log agrees with the table: connections counted in less
    connections counted out is the size of the table. *)
Definition metrics_consistent (s : Server) : Prop :=
  forall log, metrics_ s = Some log ->
    Z.of_nat (count_increments "clients_connected_total" log) -
    Z.of_nat (count_increments "clients_disconnected_total" log) =
    Z.of_nat (size (clients_ s)).

(** The last value reported for the gauge [clients_active], if there is
    one, is the size of the table. *)
Definition gauge_tracks (s : Server) : Prop :=
  forall log, metrics_ s = Some log ->
    match last_gauge "clients_active" log with
    | Some v => v = Z.of_nat (size (clients_ s))
    | None => size (clients_ s) = O
    end.

(** The two statements about the metrics log, kept together. *)
Definition metrics_agree (s : Server) : Prop :=
  metrics_consistent s /\ gauge_tracks s.

(** How many of the accepted sockets had a connection whose [initialize()]
    succeeded. *)
Definition count_initialized (sockets : list (Z * bool)) : nat :=
  length (filter (fun so => so.2 = true) sockets).

(** [handleClientConnection] for each accepted socket in turn; the boolean
    is the result of the connection's [initialize()]. *)
Definition accept_all (sockets : list (Z * bool)) (s : Server) : Server :=
  fold_left (fun acc so => handleClientConnection so.1 so.2 acc) sockets s.

(** The recipients of a broadcast: authenticated and not filed under the
    sender's id. *)
Definition is_recipient (sender_id : Z) (entry : Z * ClientConnection) : bool :=
  negb (entry.1 =? sender_id) && isAuthenticated entry.2.

(** The server after one connection was accepted and a second one failed
    to initialise. *)
Definition two_accepts : Server :=
  handleClientConnection 11 false (handleClientConnection 10 true (new_server true)).

(** A table with one authenticated connection only. *)
Definition alice_alone : Server := addClient (Some alice_first) (new_server true).

(** Three accepted sockets; the connection of the second one fails to
    initialise. *)
Definition example_sockets : list (Z * bool) := [(10, true); (11, false); (12, true)].

End Serving.

Module Lifecycle.
Import Registry.
Import Process.

(** [updateMetrics()]: the three gauges. [uptime_seconds] is the time since
    [start_time_] on the steady clock; the values are given as the integers
    that the code converts to [double]. *)
Definition updateMetrics (uptime_seconds : Z) (s : Server) : Server :=
  report [SetGauge "server_uptime_seconds" uptime_seconds;
          SetGauge "messages_total"
            (wrap64 (total_messages_sent_ s + total_messages_received_ s));
          SetGauge "memory_usage_bytes" 0] s.

(** What a background thread may still do once [running_] is cleared: the
    accept thread finishes the turn of its loop it is in, the cleanup thread
    and the metrics thread wake from their sleep and make a pass before they
    test [running_] again. [stop()] joins the three threads, so these passes
    happen before it goes on. Meanwhile a connection may change state on
    its own. *)
Inductive LastPass : Type :=
  | LastAccept (accepted : Call Z) (initialize_ok : bool)
  | LastCleanup
  | LastMetrics (uptime_seconds : Z)
  | ConnectionChanged (client_id : Z) (st : ClientState) (user : string).

Definition run_pass (s : Server) (pass : LastPass) : Server :=
  match pass with
  | LastAccept (Returns client_socket) initialize_ok =>
      if 0 <=? client_socket
      then handleClientConnection client_socket initialize_ok s
      else s
  | LastAccept (Throws _) _ => s
  | LastCleanup => cleanupDisconnectedClients s
  | LastMetrics uptime_seconds => updateMetrics uptime_seconds s
  | ConnectionChanged client_id st user => connection_changed client_id st user s
  end.

(** A [Server] after [initialize()] has built its components. [server] is
    the table with its counters. [socket_manager_live] is [true] from the
    moment [socket_manager_->start()] has returned [true] until
    [socket_manager_->stop()] is called; [event_loop_live] likewise for the
    event loop; [threads_live] is [true] while the background threads exist
    and have not been joined. [disconnect_calls] lists the ids of the
    connections on which [disconnect()] has been called, in order.
    [pending_passes] is where the background threads are: the passes they
    have under way or are sleeping before, which they complete, in this
    order, if [running_] is cleared now, together with the changes of state
    that connections make in between. Each thread has at most one such
    pass; the list is not restricted to that. *)
Record ServerState : Type := {
  server : Server;
  running_ : bool;
  shutdown_requested_ : bool;
  socket_manager_live : bool;
  event_loop_live : bool;
  threads_live : bool;
  disconnect_calls : list Z;
  pending_passes : list LastPass
}.

Definition initialized (metrics_enabled : bool) : ServerState :=
  {| server := new_server metrics_enabled; running_ := false;
     shutdown_requested_ := false; socket_manager_live := false;
     event_loop_live := false; threads_live := false; disconnect_calls := [];
     pending_passes := [] |}.

Definition with_server (s : Server) (st : ServerState) : ServerState :=
  {| server := s; running_ := running_ st;
     shutdown_requested_ := shutdown_requested_ st;
     socket_manager_live := socket_manager_live st;
     event_loop_live := event_loop_live st; threads_live := threads_live st;
     disconnect_calls := disconnect_calls st;
     pending_passes := pending_passes st |}.

Definition with_pending (passes : list LastPass) (st : ServerState) : ServerState :=
  {| server := server st; running_ := running_ st;
     shutdown_requested_ := shutdown_requested_ st;
     socket_manager_live := socket_manager_live st;
     event_loop_live := event_loop_live st; threads_live := threads_live st;
     disconnect_calls := disconnect_calls st;
     pending_passes := passes |}.

(** The server as the joined threads leave it. *)
Definition settled (st : ServerState) : Server :=
  fold_left run_pass (pending_passes st) (server st).

(** [stop()]: nothing when the server is not running; otherwise the flag is
    cleared, the socket manager and the event loop are stopped, the three
    threads are joined, [disconnect()] is called on every connection that
    is registered by then, and the table is cleared. *)
Definition stop (st : ServerState) : ServerState :=
  if negb (running_ st) then st
  else
    {| server := set_clients ∅ (settled st);
       running_ := false;
       shutdown_requested_ := shutdown_requested_ st;
       socket_manager_live := false;
       event_loop_live := false;
       threads_live := false;
       disconnect_calls :=
         disconnect_calls st ++ (map_to_list (clients_ (settled st))).*1;
       pending_passes := [] |}.

Definition shutdown (st : ServerState) : ServerState :=
  stop {| server := server st; running_ := running_ st;
          shutdown_requested_ := true;
          socket_manager_live := socket_manager_live st;
          event_loop_live := event_loop_live st; threads_live := threads_live st;
          disconnect_calls := disconnect_calls st;
          pending_passes := pending_passes st |}.

(** What [start()] depends on: the result of [socket_manager_->start()],
    whether [event_loop_->start()] returns or throws, and whether creating
    the background threads returns or throws. *)
Record StartEnvironment : Type := {
  socket_manager_start : bool;
  event_loop_start : Call unit;
  create_threads : Call unit
}.

(** The handler of [start()] catches [std::exception] only, calls [stop()]
    and throws again; anything else leaves [start()] at once. *)
Definition start_failed (t : Thrown) (st : ServerState) : Call unit * ServerState :=
  match t with
  | StdException => (Throws t, stop st)
  | UnknownException => (Throws t, st)
  end.

Definition start (env : StartEnvironment) (st : ServerState) : Call unit * ServerState :=
  if running_ st then (Returns tt, st)
  else if negb (socket_manager_start env) then start_failed StdException st
  else
    let st1 :=
      {| server := server st; running_ := running_ st;
         shutdown_requested_ := shutdown_requested_ st;
         socket_manager_live := true;
         event_loop_live := event_loop_live st; threads_live := threads_live st;
         disconnect_calls := disconnect_calls st;
         pending_passes := pending_passes st |} in
    match event_loop_start env with
    | Throws t => start_failed t st1
    | Returns _ =>
        let st2 :=
          {| server := server st1; running_ := running_ st1;
             shutdown_requested_ := shutdown_requested_ st1;
             socket_manager_live := socket_manager_live st1;
             event_loop_live := true; threads_live := threads_live st1;
             disconnect_calls := disconnect_calls st1;
             pending_passes := pending_passes st1 |} in
        match create_threads env with
        | Throws t => start_failed t st2
        | Returns _ =>
            (Returns tt,
             {| server := server st2; running_ := true;
                shutdown_requested_ := shutdown_requested_ st2;
                socket_manager_live := socket_manager_live st2;
                event_loop_live := event_loop_live st2; threads_live := true;
                disconnect_calls := disconnect_calls st2;
                pending_passes := pending_passes st2 |})
        end
    end.

(** The condition of the loop in [acceptConnections]. *)
Definition accepting (st : ServerState) : bool :=
  running_ st && negb (shutdown_requested_ st).

(** One turn of the loop in [acceptConnections]. [accepted] is what
    [socket_manager_->acceptConnection()] gives; the job handed to the
    thread pool for a socket is [handleClientConnection], run here at once,
    with [initialize_ok] the result of the connection's [initialize()]. An
    exception is logged and the loop goes on. *)
Definition accept_once (accepted : Call Z) (initialize_ok : bool) (st : ServerState)
  : ServerState :=
  if accepting st then
    match accepted with
    | Returns client_socket =>
        if 0 <=? client_socket
        then with_server (handleClientConnection client_socket initialize_ok (server st)) st
        else st
    | Throws _ => st
    end
  else st.

(** One turn of the loop of the cleanup thread, and of the metrics thread,
    taken while the server runs. *)
Definition cleanup_once (st : ServerState) : ServerState :=
  if running_ st then with_server (cleanupDisconnectedClients (server st)) st else st.

Definition metrics_once (uptime_seconds : Z) (st : ServerState) : ServerState :=
  if running_ st then with_server (updateMetrics uptime_seconds (server st)) st else st.

(** The operations that change the life-cycle flags, the turns of the three
    background loops, and the background threads moving on. *)
Inductive life_step : ServerState -> ServerState -> Prop :=
  | life_start env st : life_step st (start env st).2
  | life_stop st : life_step st (stop st)
  | life_shutdown st : life_step st (shutdown st)
  | life_accept accepted ok st : life_step st (accept_once accepted ok st)
  | life_cleanup st : life_step st (cleanup_once st)
  | life_metrics uptime_seconds st : life_step st (metrics_once uptime_seconds st)
  | life_threads passes st : life_step st (with_pending passes st).

Inductive life_steps : ServerState -> ServerState -> Prop :=
  | life_steps_refl st : life_steps st st
  | life_steps_step st st' st'' :
      life_steps st st' -> life_step st' st'' -> life_steps st st''.

(** Environments of [start()]: everything starts; the event loop throws
    after the socket manager has started. *)
Definition start_succeeds : StartEnvironment :=
  {| socket_manager_start := true; event_loop_start := Returns tt;
     create_threads := Returns tt |}.

Definition event_loop_throws : StartEnvironment :=
  {| socket_manager_start := true; event_loop_start := Throws StdException;
     create_threads := Returns tt |}.

(** A running server with two registered connections. *)
Definition running_with_two : ServerState :=
  with_server alice_twice (start start_succeeds (initialized true)).2.


End Lifecycle.

(** * Message formatting of the logger ([utils/logger.hpp]) *)

Module Logging.

(** [format.find("{}")]: the position of the first occurrence of the two
    characters, [None] for [npos]. *)
Fixpoint find_placeholder (format : string) : option nat :=
  match format with
  | EmptyString => None
  | String c rest =>
      match rest with
      | EmptyString => None
      | String d _ =>
          if Ascii.eqb c "{" && Ascii.eqb d "}" then Some O
          else option_map S (find_placeholder rest)
      end
  end.

(** [format.substr(pos)]: from [pos] to the end. *)
Definition substr_from (pos : nat) (format : string) : string :=
  substring pos (String.length format - pos) format.

(** [formatStringImpl], with each argument given as the text [operator<<]
    writes for it. The stream receives the text before the placeholder, the
    argument, and then what the call on the rest of the format writes; with
    no placeholder, or no argument left, it receives the format as it is. *)
Fixpoint formatStringImpl (format : string) (args : list string) : string :=
  match args with
  | [] => format
  | value :: rest =>
      match find_placeholder format with
      | Some pos =>
          substring 0 pos format +:+ value +:+
          formatStringImpl (substr_from (pos + 2) format) rest
      | None => format
      end
  end.

Definition formatString (format : string) (args : list string) : string :=
  formatStringImpl format args.

(** The number of placeholders a scan from left to right meets. *)
Fixpoint count_placeholders (format : string) : nat :=
  match format with
  | EmptyString => O
  | String c rest =>
      match rest with
      | EmptyString => O
      | String d rest' =>
          if Ascii.eqb c "{" && Ascii.eqb d "}" then S (count_placeholders rest')
          else count_placeholders rest
      end
  end.

End Logging.

(** * More of [main.cpp] *)

Module ProcessMore.
Import Process.

(** An environment in which no text is a number for [std::stoi]. *)
Definition no_numbers : Environment :=
  {| stoi := fun _ => None;
     setup_logging := fun _ => Returns tt;
     loadFromFile := fun _ => Returns true;
     server_initialize := fun _ => Returns true;
     signal_while_starting := None;
     server_start := Returns tt;
     main_loop := NeverEnds |}.

End ProcessMore.

(** * The login dialog of the desktop client ([client/qt/src/login_dialog.cpp]) *)

Module LoginForm.

Definition MIN_PASSWORD_LENGTH : nat := 6.
Definition MAX_USERNAME_LENGTH : nat := 32.

(** The line edits that can receive the focus. *)
Inductive Field : Type :=
  | UsernameEdit
  | PasswordEdit
  | RegUsernameEdit
  | RegPasswordEdit
  | RegConfirmPasswordEdit
  | RegEmailEdit
  | ServerHostEdit
  | ServerPortEdit.

(** The messages [validateForm] passes to [setLoginError]. *)
Inductive FormError : Type :=
  | EnterUsername
  | UsernameTooShort
  | EnterPassword
  | PasswordTooShort
  | ChooseUsername
  | ChoosePassword
  | PasswordsDoNotMatch
  | InvalidEmail
  | EnterServerAddress
  | InvalidPort.

(** The state of the dialog that the validation reads: the mode flags and
    the text of each line edit. [m_regEmailEdit_acceptable] is what
    [m_regEmailEdit->hasAcceptableInput()] returns. *)
Record Form : Type := {
  m_isLoginMode : bool;
  m_isAdvancedMode : bool;
  m_loginInProgress : bool;
  m_usernameEdit : string;
  m_passwordEdit : string;
  m_regUsernameEdit : string;
  m_regPasswordEdit : string;
  m_regConfirmPasswordEdit : string;
  m_regEmailEdit : string;
  m_regEmailEdit_acceptable : bool;
  m_serverHostEdit : string;
  m_serverPortEdit : string
}.

Record LoginRequest : Type := {
  request_username : string;
  request_password : string;
  request_host : string;
  request_port : Z
}.

Definition isEmpty (text : string) : bool := (String.length text =? 0)%nat.

Section Qt.
(** [QString::trimmed] and [QString::toInt] (0 when the text is not a
    number), which belong to the Qt library. *)
Variable trimmed : string -> string.
Variable toInt : string -> Z.

(** The checks on the server settings, made in advanced mode only. *)
Definition validateServer (f : Form) : option (FormError * Field) :=
  if m_isAdvancedMode f then
    let host := trimmed (m_serverHostEdit f) in
    let port := toInt (m_serverPortEdit f) in
    if isEmpty host then Some (EnterServerAddress, ServerHostEdit)
    else if (port <=? 0) || (65535 <? port) then Some (InvalidPort, ServerPortEdit)
    else None
  else None.

(** [validateForm]: [None] when it returns [true]; otherwise the error it
    shows and the line edit it gives the focus to before returning
    [false]. *)
Definition validateForm (f : Form) : option (FormError * Field) :=
  if m_isLoginMode f then
    let username := trimmed (m_usernameEdit f) in
    let password := m_passwordEdit f in
    if isEmpty username then Some (EnterUsername, UsernameEdit)
    else if (String.length username <? 3)%nat then Some (UsernameTooShort, UsernameEdit)
    else if isEmpty password then Some (EnterPassword, PasswordEdit)
    else if (String.length password <? MIN_PASSWORD_LENGTH)%nat
      then Some (PasswordTooShort, PasswordEdit)
    else validateServer f
  else
    let username := trimmed (m_regUsernameEdit f) in
    let password := m_regPasswordEdit f in
    let confirmPassword := m_regConfirmPasswordEdit f in
    let email := trimmed (m_regEmailEdit f) in
    if isEmpty username then Some (ChooseUsername, RegUsernameEdit)
    else if (String.length username <? 3)%nat then Some (UsernameTooShort, RegUsernameEdit)
    else if isEmpty password then Some (ChoosePassword, RegPasswordEdit)
    else if (String.length password <? MIN_PASSWORD_LENGTH)%nat
      then Some (PasswordTooShort, RegPasswordEdit)
    else if negb (String.eqb password confirmPassword)
      then Some (PasswordsDoNotMatch, RegConfirmPasswordEdit)
    else if negb (isEmpty email) && negb (m_regEmailEdit_acceptable f)
      then Some (InvalidEmail, RegEmailEdit)
    else validateServer f.

(** [updateButtonStates]: whether the login and register buttons are
    enabled. *)
Definition updateButtonStates (f : Form) : bool :=
  let formValid :=
    if m_isLoginMode f then
      negb (isEmpty (trimmed (m_usernameEdit f))) && negb (isEmpty (m_passwordEdit f))
    else
      negb (isEmpty (trimmed (m_regUsernameEdit f))) &&
      negb (isEmpty (m_regPasswordEdit f)) &&
      negb (isEmpty (m_regConfirmPasswordEdit f)) in
  formValid && negb (m_loginInProgress f).

(** [onLoginClicked]: the [loginRequested] signal it emits, if any. *)
Definition onLoginClicked (f : Form) : option LoginRequest :=
  match validateForm f with
  | Some _ => None
  | None =>
      Some {| request_username := trimmed (m_usernameEdit f);
              request_password := m_passwordEdit f;
              request_host := trimmed (m_serverHostEdit f);
              request_port := toInt (m_serverPortEdit f) |}
  end.

Definition getUsername (f : Form) : string :=
  if m_isLoginMode f then trimmed (m_usernameEdit f) else trimmed (m_regUsernameEdit f).

Definition getPassword (f : Form) : string :=
  if m_isLoginMode f then m_passwordEdit f else m_regPasswordEdit f.

End Qt.

(** Stand-ins for the two Qt functions, to run the definitions on: no
    trimming, and a port read as the length of its text. *)
Definition demo_trimmed (text : string) : string := text.
Definition demo_toInt (text : string) : Z := Z.of_nat (String.length text).

Definition demo_login_form : Form :=
  {| m_isLoginMode := true; m_isAdvancedMode := true; m_loginInProgress := false;
     m_usernameEdit := "alice"; m_passwordEdit := "Secret!1";
     m_regUsernameEdit := ""; m_regPasswordEdit := "";
     m_regConfirmPasswordEdit := ""; m_regEmailEdit := "";
     m_regEmailEdit_acceptable := false;
     m_serverHostEdit := "localhost"; m_serverPortEdit := "8080" |}.

End LoginForm.

(** * Properties *)

(** ** Machine integers and byte vectors *)


Lemma wrap64_small z : 0 <= z < two64 -> wrap64 z = z.
Proof. intros H. unfold wrap64. now apply Z.mod_small. Qed.


Lemma wrap64_add_idemp a b : wrap64 (a + wrap64 b) = wrap64 (a + b).
Proof. unfold wrap64. apply Zplus_mod_idemp_r. Qed.

Lemma xor_ascii_cancel a k : xor_ascii (xor_ascii a k) k = a.
Proof.
  destruct a, k; simpl.
  rewrite !xorb_assoc, !xorb_nilpotent, !xorb_false_r. reflexivity.
Qed.

Lemma xor_ascii_zero_iff a b : is_zero_ascii (xor_ascii a b) = true <-> a = b.
Proof.
  destruct a as [a0 a1 a2 a3 a4 a5 a6 a7], b as [b0 b1 b2 b3 b4 b5 b6 b7].
  simpl. rewrite negb_true_iff, !orb_false_iff. split.
  - intros [[[[[[[H0 H1] H2] H3] H4] H5] H6] H7].
    apply xorb_eq in H0, H1, H2, H3, H4, H5, H6, H7. congruence.
  - intros H. injection H as -> -> -> -> -> -> -> ->.
    rewrite !xorb_nilpotent. tauto.
Qed.

Lemma or_ascii_zero_iff a b :
  is_zero_ascii (or_ascii a b) = true <->
  is_zero_ascii a = true /\ is_zero_ascii b = true.
Proof.
  destruct a as [a0 a1 a2 a3 a4 a5 a6 a7], b as [b0 b1 b2 b3 b4 b5 b6 b7].
  simpl. rewrite !negb_true_iff, !orb_false_iff. tauto.
Qed.


Lemma ct_accumulate_zero a : forall b acc,
  length a = length b ->
  is_zero_ascii (ct_accumulate a b acc) = true <->
  is_zero_ascii acc = true /\ a = b.
Proof.
  induction a as [|x a IH]; intros [|y b] acc Hlen; simpl in *; try discriminate.
  - tauto.
  - rewrite IH by congruence.
    rewrite or_ascii_zero_iff, xor_ascii_zero_iff.
    split.
    + intros [[Hacc ->] ->]. auto.
    + intros [Hacc E]. injection E as -> ->. auto.
Qed.

Lemma constant_time_compare_eq a b : constant_time_compare a b = true <-> a = b.
Proof.
  unfold constant_time_compare. rewrite andb_true_iff, Nat.eqb_eq. split.
  - intros [Hlen Hz]. apply (ct_accumulate_zero a b zero Hlen) in Hz. tauto.
  - intros ->. split; [reflexivity|].
    apply ct_accumulate_zero; auto.
Qed.

Lemma constant_time_compare_refl a : constant_time_compare a a = true.
Proof. now apply constant_time_compare_eq. Qed.

(** ** Session cryptography *)

Module CryptoFacts.
Import Crypto.

Section Envelope.
Context `{Primitives}.

Lemma ctr_xor_cancel key iv0 data : forall j,
  ctr_xor key iv0 j (ctr_xor key iv0 j data) = data.
Proof.
  induction data as [|b rest IH]; intros j; simpl.
  - reflexivity.
  - rewrite xor_ascii_cancel, IH. reflexivity.
Qed.

Lemma ctr_xor_length key iv0 data : forall j,
  length (ctr_xor key iv0 j data) = length data.
Proof. induction data as [|b rest IH]; intros j; simpl; [|rewrite IH]; reflexivity. Qed.

Lemma aesDecrypt_aesEncrypt m m' plaintext iv0 :
  session_key_ m' = session_key_ m ->
  aesDecrypt m' (aesEncrypt m plaintext iv0) iv0 = plaintext.
Proof. unfold aesDecrypt, aesEncrypt. intros ->. apply ctr_xor_cancel. Qed.


Lemma verifyHMAC_iff m data tag :
  verifyHMAC m data tag = true <-> tag = computeHMAC m data.
Proof.
  unfold verifyHMAC. rewrite constant_time_compare_eq. split; congruence.
Qed.

Lemma verifyHMAC_computeHMAC m m' data :
  hmac_key_ m' = hmac_key_ m ->
  verifyHMAC m' data (computeHMAC m data) = true.
Proof. intros E. apply verifyHMAC_iff. unfold computeHMAC. now rewrite E. Qed.

Lemma replayed_true m seq :
  replayed m seq = true <-> exists h, highest_accepted_ m = Some h /\ seq <= h.
Proof.
  unfold replayed. destruct (highest_accepted_ m) as [h|].
  - rewrite Z.leb_le. split; [eauto | intros (h' & [= <-] & Hle); exact Hle].
  - split; [discriminate | intros (h' & Hh & _); discriminate].
Qed.

Lemma replayed_false m seq :
  replayed m seq = false <-> below (highest_accepted_ m) seq.
Proof.
  unfold replayed, below. destruct (highest_accepted_ m) as [h|].
  - rewrite Z.leb_gt. reflexivity.
  - tauto.
Qed.

(** The three exits of [decrypt]. *)
Lemma decrypt_replay e m :
  replayed m (sequence_number e) = true ->
  decrypt e m = (inl ReplayDetected, m).
Proof. unfold decrypt. intros ->. reflexivity. Qed.

Lemma decrypt_bad_tag e m :
  replayed m (sequence_number e) = false ->
  verifyHMAC m (envelope_mac_input e) (hmac e) = false ->
  decrypt e m = (inl IntegrityFailed, m).
Proof. unfold decrypt. intros -> ->. reflexivity. Qed.

Lemma decrypt_accept e m :
  replayed m (sequence_number e) = false ->
  verifyHMAC m (envelope_mac_input e) (hmac e) = true ->
  decrypt e m =
    (inr (string_of_list_ascii (aesDecrypt m (ciphertext e) (iv e))),
     set_highest_accepted (sequence_number e) m).
Proof. unfold decrypt. intros -> ->. reflexivity. Qed.

(** A rejected envelope leaves the manager as it was; an accepted one was
    above the highest accepted sequence and becomes it. *)
Lemma decrypt_rejected_unchanged e m err m' :
  decrypt e m = (inl err, m') -> m' = m.
Proof.
  unfold decrypt.
  destruct (replayed m (sequence_number e)); [intros [= _ <-]; reflexivity|].
  destruct (verifyHMAC m (envelope_mac_input e) (hmac e)); simpl.
  - discriminate.
  - intros [= _ <-]. reflexivity.
Qed.

Lemma decrypt_accepted_inv e m p m' :
  decrypt e m = (inr p, m') ->
  below (highest_accepted_ m) (sequence_number e) /\
  verifyHMAC m (envelope_mac_input e) (hmac e) = true /\
  m' = set_highest_accepted (sequence_number e) m.
Proof.
  unfold decrypt.
  destruct (replayed m (sequence_number e)) eqn:Hr; [discriminate|].
  destruct (verifyHMAC m (envelope_mac_input e) (hmac e)); simpl; [|discriminate].
  intros [= _ <-]. apply replayed_false in Hr. auto.
Qed.

Lemma accepted_sequences_above es : forall m,
  Forall (below (highest_accepted_ m)) (accepted_sequences es m) /\
  StronglySorted Z.lt (accepted_sequences es m).
Proof.
  induction es as [|e rest IH]; intros m; simpl.
  - split; constructor.
  - destruct (decrypt e m) as [[err|p] m'] eqn:D.
    + apply decrypt_rejected_unchanged in D. subst m'. apply IH.
    + apply decrypt_accepted_inv in D. destruct D as (Hb & _ & ->).
      destruct (IH (set_highest_accepted (sequence_number e) m)) as [Hall Hsorted].
      simpl in Hall. split.
      * constructor; [exact Hb|].
        eapply Forall_impl; [exact Hall|]. intros z Hz. simpl in Hz.
        unfold below in *. destruct (highest_accepted_ m); [lia | exact I].
      * constructor; [exact Hsorted | exact Hall].
Qed.

(** Once a connection is terminated nothing more is delivered. *)
Lemma receive_terminated e reason :
  receive e (Terminated reason) = (Terminated reason, None).
Proof. reflexivity. Qed.

Lemma receive_replay_terminates e m :
  replayed m (sequence_number e) = true ->
  receive e (Live m) = (Terminated ReplayDetected, None).
Proof. intros Hr. simpl. rewrite (decrypt_replay _ _ Hr). reflexivity. Qed.

Lemma encrypt_envelope iv0 now plaintext m :
  (encrypt iv0 now plaintext m).1 =
    {| ciphertext := aesEncrypt m (list_ascii_of_string plaintext) iv0;
       iv := iv0;
       hmac := computeHMAC m (mac_input (send_sequence_ m) now iv0
                 (aesEncrypt m (list_ascii_of_string plaintext) iv0));
       timestamp := now;
       sequence_number := send_sequence_ m |}.
Proof. reflexivity. Qed.

Lemma encrypt_state iv0 now plaintext m :
  (encrypt iv0 now plaintext m).2 = set_send_sequence (wrap64 (send_sequence_ m + 1)) m.
Proof. reflexivity. Qed.

(** What [decrypt] makes of an envelope that [encrypt] produced under the
    same keys, when the replay guard lets its sequence number through. *)
Lemma decrypt_encrypt iv0 now plaintext sender receiver :
  session_key_ receiver = session_key_ sender ->
  hmac_key_ receiver = hmac_key_ sender ->
  replayed receiver (send_sequence_ sender) = false ->
  decrypt (encrypt iv0 now plaintext sender).1 receiver =
    (inr plaintext, set_highest_accepted (send_sequence_ sender) receiver).
Proof.
  intros Hk Hh Hr. rewrite encrypt_envelope.
  rewrite decrypt_accept; simpl.
  - rewrite (aesDecrypt_aesEncrypt _ _ _ _ Hk), string_of_list_ascii_of_string.
    reflexivity.
  - exact Hr.
  - unfold envelope_mac_input; simpl. now apply verifyHMAC_computeHMAC.
Qed.

Lemma encrypt_empty_ciphertext iv0 now m :
  ciphertext (encrypt iv0 now "" m).1 = [].
Proof. reflexivity. Qed.

(** The round trip on one manager, as the unit tests exercise it: the
    envelope is decrypted by the manager that has just produced it. *)
Lemma roundtrip_on_one_manager iv0 now plaintext m :
  replayed m (send_sequence_ m) = false ->
  decrypt (encrypt iv0 now plaintext m).1 (encrypt iv0 now plaintext m).2 =
    (inr plaintext,
     set_highest_accepted (send_sequence_ m) (encrypt iv0 now plaintext m).2).
Proof.
  intros Hr. rewrite encrypt_state at 1 2.
  now rewrite (decrypt_encrypt iv0 now plaintext m
                 (set_send_sequence (wrap64 (send_sequence_ m + 1)) m)).
Qed.

(** The first message after the key exchange always goes through. *)
Lemma roundtrip_after_key_exchange kp t0 peer iv0 now plaintext :
  let m := exchangeKeys peer (initialize kp t0) in
  (decrypt (encrypt iv0 now plaintext m).1 (encrypt iv0 now plaintext m).2).1 =
    inr plaintext.
Proof. intros m. rewrite roundtrip_on_one_manager; reflexivity. Qed.

(** So does every message of a run of round trips, as long as the send
    counter does not wrap. *)
Lemma roundtrips_all_succeed msgs : forall m,
  below (highest_accepted_ m) (send_sequence_ m) ->
  0 <= send_sequence_ m ->
  send_sequence_ m + Z.of_nat (length msgs) <= two64 ->
  roundtrips msgs m = map (fun msg => inr msg.2) msgs.
Proof.
  induction msgs as [|[[iv0 now] plaintext] rest IH]; intros m Hb H0 Hlen.
  - reflexivity.
  - cbn [roundtrips map]. apply replayed_false in Hb.
    rewrite (roundtrip_on_one_manager iv0 now plaintext m Hb).
    cbn [fst snd]. f_equal.
    destruct rest as [|msg rest']; [reflexivity|].
    cbn [length] in Hlen. apply IH.
    + cbn. rewrite wrap64_small by lia. lia.
    + cbn. rewrite wrap64_small by lia. lia.
    + cbn [length]. cbn. rewrite wrap64_small by lia. lia.
Qed.

(** An envelope that has been accepted is a replay from then on. *)
Lemma replay_of_accepted_envelope e m p m' :
  decrypt e m = (inr p, m') ->
  decrypt e m' = (inl ReplayDetected, m') /\
  receive e (Live m') = (Terminated ReplayDetected, None).
Proof.
  intros D. apply decrypt_accepted_inv in D. destruct D as (_ & _ & ->).
  assert (Hr : replayed (set_highest_accepted (sequence_number e) m)
                 (sequence_number e) = true).
  { unfold replayed. simpl. apply Z.leb_refl. }
  split; [now apply decrypt_replay | now apply receive_replay_terminates].
Qed.

(** An envelope made under another HMAC key is never accepted: it stops at
    the replay guard or at the tag. *)
Lemma foreign_envelope_rejected iv0 now plaintext old m :
  (forall d, HMAC_SHA256 (hmac_key_ m) d <> HMAC_SHA256 (hmac_key_ old) d) ->
  decrypt (encrypt iv0 now plaintext old).1 m =
    (inl (if replayed m (send_sequence_ old) then ReplayDetected else IntegrityFailed), m).
Proof.
  intros Htags. destruct (replayed m (send_sequence_ old)) eqn:Hr.
  - now apply decrypt_replay.
  - apply decrypt_bad_tag; [exact Hr|].
    apply not_true_is_false. intros Hv. apply verifyHMAC_iff in Hv.
    rewrite encrypt_envelope in Hv. unfold envelope_mac_input in Hv.
    simpl in Hv. unfold computeHMAC in Hv. symmetry in Hv.
    exact (Htags _ Hv).
Qed.

(** What [decrypt] makes of an envelope that [encrypt] produced under the
    same keys, whatever the replay guard says. *)
Lemma decrypt_encrypt_guard iv0 now plaintext sender receiver :
  session_key_ receiver = session_key_ sender ->
  hmac_key_ receiver = hmac_key_ sender ->
  decrypt (encrypt iv0 now plaintext sender).1 receiver =
    if replayed receiver (send_sequence_ sender)
    then (inl ReplayDetected, receiver)
    else (inr plaintext, set_highest_accepted (send_sequence_ sender) receiver).
Proof.
  intros Hk Hh. destruct (replayed receiver (send_sequence_ sender)) eqn:Hr.
  - now apply decrypt_replay.
  - now apply decrypt_encrypt.
Qed.



(** C1 (amended). Replay guard of the decrypt path: an envelope whose
    sequence number is less than or equal to the highest accepted one is
    rejected with [ReplayDetected], the connection is terminated and the
    receive state is unchanged. Any other envelope passes the guard: it is
    accepted, and the highest accepted sequence becomes its sequence
    number, when its tag verifies; it is rejected with [IntegrityFailed],
    state unchanged, when the tag does not verify. Hence, whatever list of
    envelopes is presented and in whatever order, the sequence numbers of
    the accepted ones are strictly increasing and above the sequence that
    was the highest before. *)
Theorem replay_guard_on_decrypt (e : EncryptedMessage) (m : EncryptionManager) :
  (forall h, highest_accepted_ m = Some h -> sequence_number e <= h ->
     decrypt e m = (inl ReplayDetected, m) /\
     receive e (Live m) = (Terminated ReplayDetected, None)) /\
  (below (highest_accepted_ m) (sequence_number e) ->
     (verifyHMAC m (envelope_mac_input e) (hmac e) = true ->
        exists p m', decrypt e m = (inr p, m') /\
                     highest_accepted_ m' = Some (sequence_number e) /\
                     send_sequence_ m' = send_sequence_ m) /\
     (verifyHMAC m (envelope_mac_input e) (hmac e) = false ->
        decrypt e m = (inl IntegrityFailed, m))) /\
  (forall es, StronglySorted Z.lt (accepted_sequences es m) /\
              Forall (below (highest_accepted_ m)) (accepted_sequences es m)).
Proof.
  split; [|split].
  - intros h Hh Hle.
    assert (Hr : replayed m (sequence_number e) = true)
      by (apply replayed_true; eauto).
    split; [now apply decrypt_replay | now apply receive_replay_terminates].
  - intros Hb. apply replayed_false in Hb. split; intros Hv.
    + eexists _, _. rewrite (decrypt_accept _ _ Hb Hv). split; [reflexivity|].
      split; reflexivity.
    + now apply decrypt_bad_tag.
  - intros es. destruct (accepted_sequences_above es m). auto.
Qed.

(** C2 (amended). Round trip: once the session keys are established, the
    envelope [encrypt] produces for a plaintext [P] is decrypted to [P]
    whenever its sequence number is above the highest sequence the
    decrypting manager has accepted, and that sequence number then becomes
    the highest accepted one; otherwise the envelope is rejected with
    [ReplayDetected] and nothing changes. The first message after the key
    exchange is in the first case, whatever [P]. Both cases are stated for
    a receiver that holds the sender's session keys and for the manager
    that decrypts what it has just encrypted. *)
Theorem encrypt_decrypt_roundtrip (P : string) (iv0 : AESIv) (now : Z) :
  (forall kp t0 peer,
     let m := exchangeKeys peer (initialize kp t0) in
     (decrypt (encrypt iv0 now P m).1 (encrypt iv0 now P m).2).1 = inr P) /\
  (forall sender receiver,
     session_key_ receiver = session_key_ sender ->
     hmac_key_ receiver = hmac_key_ sender ->
     (below (highest_accepted_ receiver) (send_sequence_ sender) ->
        decrypt (encrypt iv0 now P sender).1 receiver =
          (inr P, set_highest_accepted (send_sequence_ sender) receiver)) /\
     (forall h, highest_accepted_ receiver = Some h -> send_sequence_ sender <= h ->
        decrypt (encrypt iv0 now P sender).1 receiver =
          (inl ReplayDetected, receiver))) /\
  (forall m,
     (below (highest_accepted_ m) (send_sequence_ m) ->
        (decrypt (encrypt iv0 now P m).1 (encrypt iv0 now P m).2).1 = inr P) /\
     (forall h, highest_accepted_ m = Some h -> send_sequence_ m <= h ->
        (decrypt (encrypt iv0 now P m).1 (encrypt iv0 now P m).2).1 =
          inl ReplayDetected)).
Proof.
  split; [|split].
  - intros kp t0 peer m. rewrite roundtrip_on_one_manager; reflexivity.
  - intros sender receiver Hk Hh.
    rewrite (decrypt_encrypt_guard iv0 now P sender receiver Hk Hh). split.
    + intros Hb. apply replayed_false in Hb. rewrite Hb. reflexivity.
    + intros h Hs Hle.
      assert (Hr : replayed receiver (send_sequence_ sender) = true)
        by (apply replayed_true; eauto).
      rewrite Hr. reflexivity.
  - intros m. rewrite encrypt_state.
    rewrite (decrypt_encrypt_guard iv0 now P m
               (set_send_sequence (wrap64 (send_sequence_ m + 1)) m))
      by reflexivity.
    change (replayed (set_send_sequence (wrap64 (send_sequence_ m + 1)) m)
              (send_sequence_ m)) with (replayed m (send_sequence_ m)).
    split.
    + intros Hb. apply replayed_false in Hb. rewrite Hb. reflexivity.
    + intros h Hs Hle.
      assert (Hr : replayed m (send_sequence_ m) = true)
        by (apply replayed_true; eauto).
      rewrite Hr. reflexivity.
Qed.



End Envelope.

(** A receiver that holds the sender's keys and has accepted nothing yet
    decrypts the sender's first envelope. *)
Lemma encrypt_decrypt_roundtrip_witness :
  session_key_ demo_session = session_key_ demo_session /\
  hmac_key_ demo_session = hmac_key_ demo_session /\
  below (highest_accepted_ demo_session) (send_sequence_ demo_session) /\
  @decrypt demo_primitives
    (@encrypt demo_primitives (demo_iv "i") 1700000000000 "hello" demo_session).1
    demo_session =
    (inr "hello"%string, set_highest_accepted (send_sequence_ demo_session) demo_session).
Proof.
  split; [reflexivity|]. split; [reflexivity|]. split; [exact I|].
  apply (proj1 (proj1 (proj2 (@encrypt_decrypt_roundtrip demo_primitives "hello"
                                (demo_iv "i") 1700000000000))
                  demo_session demo_session eq_refl eq_refl)).
  exact I.
Defined.



Lemma replay_guard_on_decrypt_witness :
  @decrypt demo_primitives first_envelope demo_session_after_first =
    (inl ReplayDetected, demo_session_after_first) /\
  (exists p m', @decrypt demo_primitives first_envelope demo_session = (inr p, m') /\
                highest_accepted_ m' = Some 0 /\
                send_sequence_ m' = send_sequence_ demo_session) /\
  @decrypt demo_primitives forged_envelope demo_session =
    (inl IntegrityFailed, demo_session).
Proof.
  split; [|split].
  - refine (proj1 (proj1 (@replay_guard_on_decrypt demo_primitives first_envelope
                            demo_session_after_first) 0 _ _)).
    + reflexivity.
    + vm_compute. discriminate.
  - refine (proj1 (proj1 (proj2 (@replay_guard_on_decrypt demo_primitives
                                   first_envelope demo_session)) _) _).
    + exact I.
    + vm_compute. reflexivity.
  - refine (proj2 (proj1 (proj2 (@replay_guard_on_decrypt demo_primitives
                                   forged_envelope demo_session)) _) _).
    + exact I.
    + vm_compute. reflexivity.
Defined.

(** C1 (as first stated it fails): an envelope whose sequence number has
    never been seen passes the replay guard and is still not accepted when
    its tag is wrong. *)
Lemma fresh_sequence_bad_tag_rejected :
  below (highest_accepted_ demo_session) (sequence_number forged_envelope) /\
  @decrypt demo_primitives forged_envelope demo_session =
    (inl IntegrityFailed, demo_session).
Proof. split; [exact I | reflexivity]. Qed.

(** C2 (as first stated it fails): a session with established keys that has
    accepted the peer's envelope number 0 and has sent nothing yet encrypts
    its own first message under sequence number 0; decrypting that envelope
    on the same manager does not give the plaintext back but
    [ReplayDetected]. *)
Lemma own_envelope_rejected_as_replay :
  let m := demo_session_after_first in
  let sent := @encrypt demo_primitives (demo_iv "i") 1700000000001 "hello" m in
  session_key_ m = session_key_ demo_session /\
  hmac_key_ m = hmac_key_ demo_session /\
  send_sequence_ m = 0 /\ highest_accepted_ m = Some 0 /\
  (@decrypt demo_primitives sent.1 sent.2).1 = inl ReplayDetected.
Proof. repeat split. Qed.



End CryptoFacts.

(** ** Client table and fan-out *)

Module RegistryFacts.
Import Registry.

Lemma removeClient_clients client_id s :
  clients_ (removeClient client_id s) = delete client_id (clients_ s).
Proof.
  unfold removeClient. destruct (clients_ s !! client_id) eqn:E.
  - reflexivity.
  - symmetry. now apply delete_id.
Qed.

Lemma removeClient_absent client_id s :
  clients_ s !! client_id = None -> removeClient client_id s = s.
Proof. unfold removeClient. now intros ->. Qed.

Lemma removeClient_twice client_id s :
  removeClient client_id (removeClient client_id s) = removeClient client_id s.
Proof.
  apply removeClient_absent.
  rewrite removeClient_clients. apply lookup_delete_eq.
Qed.

Lemma removeClient_thread_pool client_id s :
  thread_pool_ (removeClient client_id s) = thread_pool_ s.
Proof. unfold removeClient. now destruct (clients_ s !! client_id). Qed.

Lemma removeClient_total_sent client_id s :
  total_messages_sent_ (removeClient client_id s) = total_messages_sent_ s.
Proof. unfold removeClient. now destruct (clients_ s !! client_id). Qed.

(** The second pass of the cleanup, for any list of ids. *)
Lemma remove_all_lookup ids : forall s i,
  clients_ (fold_left (fun acc client_id => removeClient client_id acc) ids s) !! i =
    if decide (i ∈ ids) then None else clients_ s !! i.
Proof.
  induction ids as [|k ids IH]; intros s i; simpl.
  - destruct (decide (i ∈ [])) as [Hin|_]; [|reflexivity].
    now apply elem_of_nil in Hin.
  - rewrite IH, removeClient_clients.
    destruct (decide (i ∈ ids)) as [Hin|Hnin].
    + rewrite decide_True by (now right). reflexivity.
    + destruct (decide (i = k)) as [->|Hne].
      * rewrite decide_True by left. apply lookup_delete_eq.
      * rewrite decide_False.
        -- now apply lookup_delete_ne.
        -- intros Hin. apply elem_of_cons in Hin. tauto.
Qed.

Lemma elem_of_disconnected_clients s i :
  i ∈ disconnected_clients s <->
  exists c, clients_ s !! i = Some c /\ isConnected c = false.
Proof.
  unfold disconnected_clients. rewrite list_elem_of_omap. split.
  - intros ([k c] & Hin & Hf). simpl in Hf.
    apply elem_of_map_to_list in Hin.
    destruct (isConnected c) eqn:Hc; simpl in Hf; [discriminate|].
    injection Hf as <-. eauto.
  - intros (c & Hl & Hc). exists (i, c). split.
    + now apply elem_of_map_to_list.
    + simpl. now rewrite Hc.
Qed.

Lemma cleanup_lookup s i :
  clients_ (cleanupDisconnectedClients s) !! i =
    match clients_ s !! i with
    | Some c => if isConnected c then Some c else None
    | None => None
    end.
Proof.
  unfold cleanupDisconnectedClients. rewrite remove_all_lookup.
  destruct (clients_ s !! i) as [c|] eqn:Hl.
  - destruct (isConnected c) eqn:Hc.
    + rewrite decide_False; [reflexivity|].
      intros Hin. apply elem_of_disconnected_clients in Hin.
      destruct Hin as (c' & Hl' & Hc'). congruence.
    + rewrite decide_True; [reflexivity|].
      apply elem_of_disconnected_clients. eauto.
  - now case_decide.
Qed.

Lemma isConnected_states c :
  isConnected c = true <->
  state_ c <> DISCONNECTING /\ state_ c <> DISCONNECTED.
Proof.
  unfold isConnected. destruct (state_ c); split;
    first [ intros _; split; discriminate
          | intros _; reflexivity
          | intros H; discriminate H
          | intros [H1 H2]; congruence ].
Qed.

Lemma cleanup_thread_pool s :
  thread_pool_ (cleanupDisconnectedClients s) = thread_pool_ s.
Proof.
  unfold cleanupDisconnectedClients.
  generalize (disconnected_clients s). intros ids. revert s.
  induction ids as [|k ids IH]; intros s; simpl; [reflexivity|].
  rewrite IH. apply removeClient_thread_pool.
Qed.

Lemma addClient_clients c s :
  clients_ (addClient (Some c) s) = <[getId c := c]> (clients_ s).
Proof. unfold addClient, report, set_clients. reflexivity. Qed.

Lemma broadcastMessage_clients message sender_id s :
  clients_ (broadcastMessage message sender_id s) = clients_ s.
Proof. reflexivity. Qed.

Lemma sendToClient_clients client_id message s :
  clients_ (sendToClient client_id message s).2 = clients_ s.
Proof.
  unfold sendToClient. destruct (getClient client_id s) as [c|]; [|reflexivity].
  destruct (isAuthenticated c); reflexivity.
Qed.

(** The invariant of the table. *)
Lemma step_keyed_by_id s s' : step s s' -> keyed_by_id s -> keyed_by_id s'.
Proof.
  intros Hstep Hinv i c. destruct Hstep.
  - unfold handleClientConnection. destruct ok.
    + rewrite addClient_clients. simpl.
      destruct (decide (next_client_id_ s = i)) as [<-|Hne].
      * rewrite lookup_insert_eq. intros [= <-]. reflexivity.
      * rewrite lookup_insert_ne by exact Hne. apply Hinv.
    + apply Hinv.
  - destruct c0 as [c0|]; [|apply Hinv].
    rewrite addClient_clients.
    destruct (decide (getId c0 = i)) as [<-|Hne].
    + rewrite lookup_insert_eq. intros [= <-]. reflexivity.
    + rewrite lookup_insert_ne by exact Hne. apply Hinv.
  - rewrite removeClient_clients.
    destruct (decide (client_id = i)) as [<-|Hne].
    + now rewrite lookup_delete_eq.
    + rewrite lookup_delete_ne by exact Hne. apply Hinv.
  - apply Hinv.
  - rewrite sendToClient_clients. apply Hinv.
  - rewrite cleanup_lookup. destruct (clients_ s !! i) as [c'|] eqn:Hl; [|discriminate].
    destruct (isConnected c'); [|discriminate]. intros [= <-]. now apply Hinv.
  - simpl. destruct (decide (client_id = i)) as [<-|Hne].
    + rewrite lookup_alter_eq.
      destruct (clients_ s !! client_id) as [c'|] eqn:Hl; [|discriminate].
      simpl. intros [= <-]. unfold getId. simpl. now apply Hinv.
    + rewrite lookup_alter_ne by exact Hne. apply Hinv.
Qed.

Lemma reachable_keyed_by_id s : reachable s -> keyed_by_id s.
Proof.
  induction 1 as [b|s s' _ IH Hstep].
  - intros i c. simpl. now rewrite lookup_empty.
  - now apply (step_keyed_by_id s).
Qed.

Lemma reachable_alice_twice : reachable alice_twice.
Proof.
  unfold alice_twice.
  eapply reachable_step; [eapply reachable_step; [apply reachable_new|]|];
    apply step_add.
Qed.

(** C4 (amended). The table is keyed by connection id alone: in every
    reachable state two different entries hold connections with different
    ids. Registering a connection files it under its id and leaves every
    other entry, the job queue and the message counter as they were, so no
    other connection is terminated or notified; a null connection is
    ignored. User names are never consulted. *)
Theorem registry_keyed_by_connection_id (s : Server) :
  reachable s ->
  (forall i j c1 c2,
     clients_ s !! i = Some c1 -> clients_ s !! j = Some c2 ->
     i <> j -> getId c1 <> getId c2) /\
  addClient None s = s /\
  (forall c,
     clients_ (addClient (Some c) s) !! getId c = Some c /\
     (forall j, j <> getId c ->
        clients_ (addClient (Some c) s) !! j = clients_ s !! j) /\
     thread_pool_ (addClient (Some c) s) = thread_pool_ s /\
     total_messages_sent_ (addClient (Some c) s) = total_messages_sent_ s).
Proof.
  intros Hr. pose proof (reachable_keyed_by_id s Hr) as Hinv.
  split; [|split; [reflexivity|]].
  - intros i j c1 c2 H1 H2 Hne E.
    apply Hinv in H1. apply Hinv in H2. congruence.
  - intros c. rewrite addClient_clients. split; [apply lookup_insert_eq|].
    split; [|split; reflexivity].
    intros j Hj. apply lookup_insert_ne. congruence.
Qed.

Lemma registry_keyed_by_connection_id_witness :
  (forall i j c1 c2,
     clients_ alice_twice !! i = Some c1 -> clients_ alice_twice !! j = Some c2 ->
     i <> j -> getId c1 <> getId c2) /\
  addClient None alice_twice = alice_twice /\
  (forall c,
     clients_ (addClient (Some c) alice_twice) !! getId c = Some c /\
     (forall j, j <> getId c ->
        clients_ (addClient (Some c) alice_twice) !! j = clients_ alice_twice !! j) /\
     thread_pool_ (addClient (Some c) alice_twice) = thread_pool_ alice_twice /\
     total_messages_sent_ (addClient (Some c) alice_twice) =
       total_messages_sent_ alice_twice).
Proof. exact (registry_keyed_by_connection_id alice_twice reachable_alice_twice). Defined.

(** C4 (as first stated it fails): after the same user has been registered
    twice both connections are in the table, both authenticated, and
    nothing has been sent to either. *)
Lemma same_username_registered_twice :
  clients_ alice_twice !! 1 = Some alice_first /\
  clients_ alice_twice !! 2 = Some alice_again /\
  isAuthenticated alice_first = true /\
  isAuthenticated alice_again = true /\
  username_ alice_first = username_ alice_again /\
  thread_pool_ alice_twice = [].
Proof. repeat split; vm_compute; reflexivity. Qed.

(** C5 (amended). [sendToClient] gives nothing back to its caller. When no
    connection has the id, or the connection is not authenticated, the call
    changes nothing at all; otherwise it enqueues one job for that
    connection with the message, adds one to the counter of sent messages
    and leaves the table as it was. The server is unchanged exactly in the
    first case. *)
Theorem sendToClient_silent_when_undeliverable (client_id : Z) (message : string)
    (s : Server) :
  (deliverable client_id s = false -> sendToClient client_id message s = (tt, s)) /\
  (deliverable client_id s = true ->
     exists client,
       clients_ s !! client_id = Some client /\
       isAuthenticated client = true /\
       thread_pool_ (sendToClient client_id message s).2 =
         thread_pool_ s ++ [{| task_client := client; task_message := message |}] /\
       total_messages_sent_ (sendToClient client_id message s).2 =
         wrap64 (total_messages_sent_ s + 1) /\
       clients_ (sendToClient client_id message s).2 = clients_ s) /\
  ((sendToClient client_id message s).2 = s <-> deliverable client_id s = false).
Proof.
  unfold deliverable, sendToClient, getClient.
  destruct (clients_ s !! client_id) as [c|] eqn:Hl.
  - destruct (isAuthenticated c) eqn:Ha.
    + split; [discriminate|]. split.
      * intros _. exists c. split; [reflexivity|]. split; [exact Ha|].
        repeat split; reflexivity.
      * split; [|discriminate]. intros E.
        apply (f_equal thread_pool_) in E. simpl in E.
        apply (f_equal (@length Task)) in E. rewrite length_app in E.
        simpl in E. lia.
    + split; [reflexivity|]. split; [discriminate|]. split; reflexivity.
  - split; [reflexivity|]. split; [discriminate|]. split; reflexivity.
Qed.

Lemma sendToClient_silent_when_undeliverable_witness :
  sendToClient 7 "hi" alice_twice = (tt, alice_twice) /\
  exists client,
    clients_ alice_twice !! 1 = Some client /\
    isAuthenticated client = true /\
    thread_pool_ (sendToClient 1 "hi" alice_twice).2 =
      thread_pool_ alice_twice ++ [{| task_client := client; task_message := "hi" |}] /\
    total_messages_sent_ (sendToClient 1 "hi" alice_twice).2 =
      wrap64 (total_messages_sent_ alice_twice + 1) /\
    clients_ (sendToClient 1 "hi" alice_twice).2 = clients_ alice_twice.
Proof.
  split.
  - refine (proj1 (sendToClient_silent_when_undeliverable 7 "hi" alice_twice) _).
    vm_compute. reflexivity.
  - refine (proj1 (proj2 (sendToClient_silent_when_undeliverable 1 "hi" alice_twice)) _).
    vm_compute. reflexivity.
Defined.

(** C5 (as first stated it fails): nothing computed from what the caller
    gets back tells a failed send from a successful one. *)
Lemma sendToClient_reports_no_error :
  ~ exists is_not_found : unit -> bool,
      forall client_id message s,
        is_not_found (sendToClient client_id message s).1 =
          negb (deliverable client_id s).
Proof.
  intros [f Hf].
  pose proof (Hf 1 "hi"%string alice_twice) as H1.
  pose proof (Hf 7 "hi"%string alice_twice) as H7.
  assert (E1 : (sendToClient 1 "hi" alice_twice).1 = tt) by now destruct (sendToClient _ _ _).1.
  assert (E7 : (sendToClient 7 "hi" alice_twice).1 = tt) by now destruct (sendToClient _ _ _).1.
  rewrite E1 in H1. rewrite E7 in H7.
  assert (D1 : deliverable 1 alice_twice = true) by (vm_compute; reflexivity).
  assert (D7 : deliverable 7 alice_twice = false) by (vm_compute; reflexivity).
  rewrite D1 in H1. rewrite D7 in H7. simpl in *. congruence.
Qed.

(** C6 (amended). The cleanup pass removes exactly the entries whose
    connection is disconnecting or disconnected: an entry is in the table
    afterwards exactly when it was there before, unchanged, with a
    connection in neither of these two states. No connection that is
    connecting, authenticating or authenticated is removed. *)
Theorem cleanup_removes_not_connected (s : Server) (i : Z) (c : ClientConnection) :
  (clients_ (cleanupDisconnectedClients s) !! i = Some c <->
   clients_ s !! i = Some c /\
   state_ c <> DISCONNECTING /\ state_ c <> DISCONNECTED) /\
  (clients_ s !! i = Some c ->
   state_ c = DISCONNECTING \/ state_ c = DISCONNECTED ->
   clients_ (cleanupDisconnectedClients s) !! i = None).
Proof.
  rewrite cleanup_lookup. split.
  - rewrite <- isConnected_states.
    destruct (clients_ s !! i) as [c'|].
    + destruct (isConnected c') eqn:Hc; split.
      * intros [= <-]. auto.
      * intros [[= <-] _]. reflexivity.
      * discriminate.
      * intros [[= <-] Hc']. congruence.
    + split; [discriminate | intros [E _]; discriminate E].
  - intros -> Hst.
    assert (Hc : isConnected c = false).
    { unfold isConnected. destruct Hst as [-> | ->]; reflexivity. }
    now rewrite Hc.
Qed.

Lemma cleanup_removes_not_connected_witness :
  clients_ (cleanupDisconnectedClients mixed_server) !! 1 = Some alice_first /\
  clients_ (cleanupDisconnectedClients mixed_server) !! 3 = None.
Proof.
  split.
  - refine (proj2 (proj1 (cleanup_removes_not_connected mixed_server 1 alice_first)) _).
    split; [vm_compute; reflexivity | split; discriminate].
  - refine (proj2 (cleanup_removes_not_connected mixed_server 3
                     (connection 3 DISCONNECTING "carol")) _ _).
    + vm_compute. reflexivity.
    + left. reflexivity.
Defined.

(** C6 (as first stated it fails): a connection that is still draining its
    queue is taken out of the table by the cleanup pass. *)
Lemma draining_connection_is_removed :
  state_ <$> clients_ mixed_server !! 3 = Some DISCONNECTING /\
  clients_ (cleanupDisconnectedClients mixed_server) !! 3 = None.
Proof. split; vm_compute; reflexivity. Qed.

(** C9. [removeClient] is idempotent: calling it twice with the same id
    leaves the server as one call does, a call for an id that is not in the
    table changes nothing, and after a call the id is not in the table. *)
Theorem removeClient_idempotent (client_id : Z) (s : Server) :
  removeClient client_id (removeClient client_id s) = removeClient client_id s /\
  (clients_ s !! client_id = None -> removeClient client_id s = s) /\
  clients_ (removeClient client_id s) !! client_id = None.
Proof.
  split; [apply removeClient_twice|]. split; [apply removeClient_absent|].
  rewrite removeClient_clients. apply lookup_delete_eq.
Qed.

Lemma removeClient_idempotent_witness :
  removeClient 1 (removeClient 1 alice_twice) = removeClient 1 alice_twice /\
  removeClient 7 alice_twice = alice_twice.
Proof.
  split.
  - exact (proj1 (removeClient_idempotent 1 alice_twice)).
  - refine (proj1 (proj2 (removeClient_idempotent 7 alice_twice)) _).
    vm_compute. reflexivity.
Defined.

(** C10. [broadcastMessage] adds to the counter of sent messages the size
    of the table, less one when the sender id is not zero, in 64-bit
    arithmetic; the jobs it enqueues are only those for the authenticated
    connections other than the sender, so the counter can grow by more than
    the number of messages enqueued. *)
Theorem broadcast_counts_registered_connections :
  (forall message sender_id s,
     total_messages_sent_ (broadcastMessage message sender_id s) =
       wrap64 (total_messages_sent_ s + Z.of_nat (size (clients_ s))
               - (if sender_id =? 0 then 0 else 1)) /\
     thread_pool_ (broadcastMessage message sender_id s) =
       thread_pool_ s ++ broadcast_tasks message sender_id s /\
     (forall t, t ∈ broadcast_tasks message sender_id s ->
        exists k, clients_ s !! k = Some (task_client t) /\ k <> sender_id /\
                  isAuthenticated (task_client t) = true /\
                  task_message t = message)) /\
  (total_messages_sent_ (broadcastMessage "hi" 0 mixed_server) =
     total_messages_sent_ mixed_server + 3 /\
   length (thread_pool_ (broadcastMessage "hi" 0 mixed_server)) =
     S (length (thread_pool_ mixed_server))).
Proof.
  split.
  - intros message sender_id s. split; [|split].
    + simpl. unfold clients_active. rewrite wrap64_add_idemp. f_equal. lia.
    + reflexivity.
    + intros t Ht. unfold broadcast_tasks in Ht.
      apply list_elem_of_omap in Ht. destruct Ht as ([k c] & Hin & Hf).
      simpl in Hf. apply elem_of_map_to_list in Hin.
      destruct (k =? sender_id) eqn:Hk; simpl in Hf; [discriminate|].
      destruct (isAuthenticated c) eqn:Ha; simpl in Hf; [|discriminate].
      injection Hf as <-. simpl. exists k. apply Z.eqb_neq in Hk. auto.
  - split; vm_compute; reflexivity.
Qed.

Lemma broadcast_counts_registered_connections_witness :
  exists k, clients_ mixed_server !! k = Some alice_first /\ k <> 0 /\
            isAuthenticated alice_first = true /\
            task_message {| task_client := alice_first; task_message := "hi" |} =
              "hi"%string.
Proof.
  refine (proj2 (proj2 (proj1 broadcast_counts_registered_connections
                          "hi"%string 0 mixed_server))
            {| task_client := alice_first; task_message := "hi" |} _).
  change ({| task_client := alice_first; task_message := "hi" |}
            ∈ [{| task_client := alice_first; task_message := "hi" |}]).
  apply list_elem_of_here.
Defined.

End RegistryFacts.

(** ** Exit code of the server process *)

Module ProcessFacts.
Import Process.













End ProcessFacts.

(** ** Id allocation and metrics *)

Module ServingFacts.
Import Registry Serving RegistryFacts.

Lemma count_increments_app name l1 l2 :
  count_increments name (l1 ++ l2) =
    (count_increments name l1 + count_increments name l2)%nat.
Proof.
  induction l1 as [|[n|n v] l1 IH]; simpl; [reflexivity| |exact IH].
  destruct (String.eqb n name); simpl; now rewrite IH.
Qed.

Lemma last_gauge_app name l1 l2 :
  last_gauge name (l1 ++ l2) =
    match last_gauge name l2 with
    | Some v => Some v
    | None => last_gauge name l1
    end.
Proof.
  induction l1 as [|[n|n v] l1 IH]; simpl.
  - now destruct (last_gauge name l2).
  - exact IH.
  - rewrite IH. destruct (last_gauge name l2); [reflexivity|].
    reflexivity.
Qed.

Lemma size_alter (f : ClientConnection -> ClientConnection) i
    (m : gmap Z ClientConnection) :
  size (alter f i m) = size m.
Proof. rewrite <- !size_dom, dom_alter_L. reflexivity. Qed.

Lemma handleClientConnection_accepted sock s :
  clients_ (handleClientConnection sock true s) =
    <[next_client_id_ s := new_connection sock (next_client_id_ s)]> (clients_ s) /\
  next_client_id_ (handleClientConnection sock true s) = wrap64 (next_client_id_ s + 1).
Proof. split; reflexivity. Qed.

Lemma handleClientConnection_refused sock s :
  clients_ (handleClientConnection sock false s) = clients_ s /\
  next_client_id_ (handleClientConnection sock false s) = wrap64 (next_client_id_ s + 1) /\
  metrics_ (handleClientConnection sock false s) = metrics_ s /\
  thread_pool_ (handleClientConnection sock false s) = thread_pool_ s.
Proof. repeat split; reflexivity. Qed.

Lemma removeClient_next client_id s :
  next_client_id_ (removeClient client_id s) = next_client_id_ s.
Proof. unfold removeClient. now destruct (clients_ s !! client_id). Qed.

Lemma sendToClient_next client_id message s :
  next_client_id_ (sendToClient client_id message s).2 = next_client_id_ s.
Proof.
  unfold sendToClient. destruct (getClient client_id s) as [c|]; [|reflexivity].
  destruct (isAuthenticated c); reflexivity.
Qed.

Lemma ids_fresh_absent s :
  ids_fresh s -> clients_ s !! next_client_id_ s = None.
Proof.
  intros [_ Hf]. destruct (clients_ s !! next_client_id_ s) as [c|] eqn:E; [|reflexivity].
  apply Hf in E. lia.
Qed.

Lemma ids_fresh_accept sock ok s :
  ids_fresh s -> next_client_id_ s + 1 < two64 ->
  ids_fresh (handleClientConnection sock ok s).
Proof.
  intros [H1 Hf] Hw.
  assert (Hn : wrap64 (next_client_id_ s + 1) = next_client_id_ s + 1)
    by (apply wrap64_small; lia).
  destruct ok.
  - destruct (handleClientConnection_accepted sock s) as [Ec En].
    split; [rewrite En, Hn; lia|]. intros i c. rewrite Ec, En, Hn.
    destruct (decide (next_client_id_ s = i)) as [<-|Hne].
    + intros _. lia.
    + rewrite lookup_insert_ne by exact Hne. intros Hl. apply Hf in Hl. lia.
  - destruct (handleClientConnection_refused sock s) as (Ec & En & _).
    split; [rewrite En, Hn; lia|]. intros i c. rewrite Ec, En, Hn.
    intros Hl. apply Hf in Hl. lia.
Qed.

Lemma ids_fresh_remove client_id s :
  ids_fresh s -> ids_fresh (removeClient client_id s).
Proof.
  intros [H1 Hf]. split; [now rewrite removeClient_next|].
  intros i c. rewrite removeClient_clients, removeClient_next.
  destruct (decide (client_id = i)) as [<-|Hne].
  - now rewrite lookup_delete_eq.
  - rewrite lookup_delete_ne by exact Hne. apply Hf.
Qed.

Lemma remove_all_preserves (P : Server -> Prop) :
  (forall client_id s, P s -> P (removeClient client_id s)) ->
  forall ids s, P s ->
    P (fold_left (fun acc client_id => removeClient client_id acc) ids s).
Proof.
  intros Hstep ids. induction ids as [|k ids IH]; intros s Hs; simpl; auto.
Qed.

Lemma served_ids_fresh s : served s -> ids_fresh s.
Proof.
  induction 1 as [b|sock ok s _ IH Hw|client_id s _ IH|message sender_id s _ IH
                  |client_id message s _ IH|s _ IH|client_id st user s _ IH].
  - split; [simpl; lia|]. intros i c. simpl. now rewrite lookup_empty.
  - now apply ids_fresh_accept.
  - now apply ids_fresh_remove.
  - exact IH.
  - destruct IH as [H1 Hf]. split.
    + now rewrite sendToClient_next.
    + intros i c. rewrite sendToClient_clients, sendToClient_next. apply Hf.
  - unfold cleanupDisconnectedClients.
    apply (remove_all_preserves ids_fresh); [apply ids_fresh_remove | exact IH].
  - destruct IH as [H1 Hf]. split; [exact H1|]. intros i c. simpl.
    destruct (decide (client_id = i)) as [<-|Hne].
    + rewrite lookup_alter_eq.
      destruct (clients_ s !! client_id) as [c'|] eqn:Hl; [|discriminate].
      intros _. now apply (Hf client_id c').
    + rewrite lookup_alter_ne by exact Hne. apply Hf.
Qed.

(** X1. A connection accepted by the server never takes the place of one
    that is registered: it is filed under an id that was free, every entry
    present before is still there unchanged, the table grows by one and the
    id counter by one. *)
Theorem accepted_connection_gets_a_free_id (sock : Z) (s : Server) :
  served s -> next_client_id_ s + 1 < two64 ->
  clients_ s !! next_client_id_ s = None /\
  clients_ (handleClientConnection sock true s) !! next_client_id_ s =
    Some (new_connection sock (next_client_id_ s)) /\
  (forall i c, clients_ s !! i = Some c ->
     clients_ (handleClientConnection sock true s) !! i = Some c) /\
  size (clients_ (handleClientConnection sock true s)) = S (size (clients_ s)) /\
  next_client_id_ (handleClientConnection sock true s) = next_client_id_ s + 1.
Proof.
  intros Hs Hw. pose proof (served_ids_fresh s Hs) as Hf.
  pose proof (ids_fresh_absent s Hf) as Habs.
  destruct (handleClientConnection_accepted sock s) as [Ec En].
  rewrite Ec, En. split; [exact Habs|]. split; [apply lookup_insert_eq|].
  split; [|split].
  - intros i c Hl. rewrite lookup_insert_ne; [exact Hl|]. congruence.
  - now apply map_size_insert_None.
  - apply wrap64_small. destruct Hf as [H1 _]. lia.
Qed.

Lemma served_after_two_accepts :
  served (handleClientConnection 11 false (handleClientConnection 10 true (new_server true))).
Proof.
  apply served_accept; [apply served_accept; [apply served_new|]|];
    vm_compute; reflexivity.
Qed.

Lemma accepted_connection_gets_a_free_id_witness :
  let s := handleClientConnection 11 false
             (handleClientConnection 10 true (new_server true)) in
  clients_ s !! next_client_id_ s = None /\
  clients_ (handleClientConnection 12 true s) !! next_client_id_ s =
    Some (new_connection 12 (next_client_id_ s)) /\
  (forall i c, clients_ s !! i = Some c ->
     clients_ (handleClientConnection 12 true s) !! i = Some c) /\
  size (clients_ (handleClientConnection 12 true s)) = S (size (clients_ s)) /\
  next_client_id_ (handleClientConnection 12 true s) = next_client_id_ s + 1.
Proof.
  refine (accepted_connection_gets_a_free_id 12 _ served_after_two_accepts _).
  vm_compute. reflexivity.
Defined.

Lemma handleClientConnection_size sock ok s :
  ids_fresh s ->
  size (clients_ (handleClientConnection sock ok s)) =
    (size (clients_ s) + (if ok then 1 else 0))%nat.
Proof.
  intros Hf. destruct ok.
  - destruct (handleClientConnection_accepted sock s) as [-> _].
    rewrite map_size_insert_None by now apply ids_fresh_absent. lia.
  - destruct (handleClientConnection_refused sock s) as [-> _]. lia.
Qed.

(** X2. In a state that the server's own operations have reached, with
    [addClient] called by [handleClientConnection] only, and as long as the
    id counter stays below 2^64, a run of accepted sockets advances the id
    counter by the number of sockets, whether or not their connections could
    be initialised, and grows the table by the number that could: an id
    whose connection failed to initialise is used up. *)
Theorem accept_all_counts (sockets : list (Z * bool)) : forall s : Server,
  served s ->
  next_client_id_ s + Z.of_nat (length sockets) < two64 ->
  served (accept_all sockets s) /\
  next_client_id_ (accept_all sockets s) =
    next_client_id_ s + Z.of_nat (length sockets) /\
  size (clients_ (accept_all sockets s)) =
    (size (clients_ s) + count_initialized sockets)%nat.
Proof.
  induction sockets as [|[sock ok] rest IH]; intros s Hs Hw.
  - simpl. split; [exact Hs|]. split; [lia|]. unfold count_initialized. simpl. lia.
  - cbn [length] in Hw. unfold accept_all. cbn [fold_left fst snd].
    pose proof (served_ids_fresh s Hs) as Hf.
    assert (Hs1 : served (handleClientConnection sock ok s))
      by (apply served_accept; [exact Hs | lia]).
    assert (Hn1 : next_client_id_ (handleClientConnection sock ok s) =
                  next_client_id_ s + 1).
    { destruct Hf as [H1 _].
      destruct ok; simpl; apply wrap64_small; lia. }
    destruct (IH (handleClientConnection sock ok s) Hs1) as (Hs' & Hn' & Hz').
    { rewrite Hn1. lia. }
    fold (accept_all rest (handleClientConnection sock ok s)).
    split; [exact Hs'|]. split.
    + rewrite Hn', Hn1. cbn [length]. lia.
    + rewrite Hz', (handleClientConnection_size sock ok s Hf).
      unfold count_initialized. destruct ok.
      * rewrite filter_cons_True by reflexivity. cbn [length]. lia.
      * rewrite filter_cons_False by (simpl; discriminate). lia.
Qed.

Lemma accept_all_counts_witness :
  served (accept_all example_sockets (new_server true)) /\
  next_client_id_ (accept_all example_sockets (new_server true)) =
    next_client_id_ (new_server true) + Z.of_nat (length example_sockets) /\
  size (clients_ (accept_all example_sockets (new_server true))) =
    (size (clients_ (new_server true)) + count_initialized example_sockets)%nat.
Proof.
  refine (accept_all_counts example_sockets (new_server true) (served_new true) _).
  vm_compute. reflexivity.
Defined.

Lemma metrics_agree_same_table s s' evs :
  clients_ s' = clients_ s ->
  metrics_ s' = (fun log => log ++ evs) <$> metrics_ s ->
  count_increments "clients_connected_total" evs = O ->
  count_increments "clients_disconnected_total" evs = O ->
  last_gauge "clients_active" evs = None ->
  metrics_agree s -> metrics_agree s'.
Proof.
  intros Ec Em Hc Hd Hg [Hm Hgt]. split; intros log Hlog; rewrite Em in Hlog;
    destruct (metrics_ s) as [l0|] eqn:E0; try discriminate; injection Hlog as <-.
  - rewrite !count_increments_app, Hc, Hd, Ec, !Nat.add_0_r. now apply Hm.
  - rewrite last_gauge_app, Hg, Ec. now apply Hgt.
Qed.

Lemma metrics_agree_remove client_id s :
  metrics_agree s -> metrics_agree (removeClient client_id s).
Proof.
  intros [Hm Hgt]. unfold removeClient.
  destruct (clients_ s !! client_id) as [c|] eqn:Hl; [|now split].
  assert (Hsz : size (clients_ s) <> O)
    by (apply (map_size_ne_0_lookup_2 _ client_id); eauto).
  assert (Hd : size (delete client_id (clients_ s)) = pred (size (clients_ s)))
    by (apply map_size_delete_Some; eauto).
  split; intros log Hlog; simpl in Hlog;
    destruct (metrics_ s) as [l0|] eqn:E0; try discriminate; injection Hlog as <-.
  - rewrite !count_increments_app. simpl. rewrite Hd.
    specialize (Hm l0 E0). lia.
  - rewrite last_gauge_app. simpl. unfold clients_active. simpl. reflexivity.
Qed.

Lemma metrics_agree_accept sock ok s :
  ids_fresh s -> metrics_agree s -> metrics_agree (handleClientConnection sock ok s).
Proof.
  intros Hf [Hm Hgt]. destruct ok; [|now split].
  pose proof (ids_fresh_absent s Hf) as Habs.
  assert (Hi : size (<[next_client_id_ s := new_connection sock (next_client_id_ s)]>
                       (clients_ s)) = S (size (clients_ s)))
    by now apply map_size_insert_None.
  split; intros log Hlog; simpl in Hlog;
    destruct (metrics_ s) as [l0|] eqn:E0; try discriminate; injection Hlog as <-.
  - rewrite !count_increments_app. simpl. unfold getId. simpl. rewrite Hi.
    specialize (Hm l0 E0). lia.
  - rewrite last_gauge_app. simpl. unfold clients_active. simpl. reflexivity.
Qed.

Lemma metrics_agree_send client_id message s :
  metrics_agree s -> metrics_agree (sendToClient client_id message s).2.
Proof.
  intros Ha. unfold sendToClient.
  destruct (getClient client_id s) as [c|]; [|exact Ha].
  destruct (isAuthenticated c); [|exact Ha].
  apply (metrics_agree_same_table s _ [IncrementCounter "messages_sent_total"]);
    try reflexivity; try exact Ha.
  all: simpl; now destruct (metrics_ s).
Qed.

Lemma metrics_agree_broadcast message sender_id s :
  metrics_agree s -> metrics_agree (broadcastMessage message sender_id s).
Proof.
  intros Ha.
  apply (metrics_agree_same_table s _ [IncrementCounter "messages_broadcast_total"]);
    try reflexivity; try exact Ha.
  all: simpl; now destruct (metrics_ s).
Qed.

Lemma metrics_agree_connection client_id st user s :
  metrics_agree s -> metrics_agree (connection_changed client_id st user s).
Proof.
  intros [Hm Hgt]. split; intros log Hlog; simpl in *.
  - rewrite size_alter. now apply Hm.
  - rewrite size_alter. now apply Hgt.
Qed.

Lemma served_metrics_agree s : served s -> metrics_agree s.
Proof.
  intros Hs. induction Hs as [b|sock ok s Hs IH Hw|client_id s _ IH|message sender_id s _ IH
                  |client_id message s _ IH|s _ IH|client_id st user s _ IH].
  - split; intros log Hlog; destruct b; try discriminate;
      simpl in Hlog; injection Hlog as <-; reflexivity.
  - apply metrics_agree_accept; [now apply served_ids_fresh | exact IH].
  - now apply metrics_agree_remove.
  - now apply metrics_agree_broadcast.
  - now apply metrics_agree_send.
  - unfold cleanupDisconnectedClients.
    apply (remove_all_preserves metrics_agree); [apply metrics_agree_remove | exact IH].
  - now apply metrics_agree_connection.
Qed.

(** X3. The metrics follow the table in every state reached from a new
    server, with metrics enabled, by accepting sockets while the id counter
    stays below 2^64, [removeClient], [broadcastMessage], [sendToClient],
    [cleanupDisconnectedClients] and connections changing state, [addClient]
    being called by [handleClientConnection] only: the connections counted
    in ([clients_connected_total]) less those counted out
    ([clients_disconnected_total]) are as many as the table holds, and the
    gauge [clients_active], once it has been reported, shows that size.
    [stop()] is not among these operations. *)
Theorem metrics_follow_the_table (s : Server) (log : list MetricEvent) :
  served s -> metrics_ s = Some log ->
  Z.of_nat (count_increments "clients_connected_total" log) -
  Z.of_nat (count_increments "clients_disconnected_total" log) =
    Z.of_nat (size (clients_ s)) /\
  match last_gauge "clients_active" log with
  | Some v => v = Z.of_nat (size (clients_ s))
  | None => size (clients_ s) = O
  end.
Proof.
  intros Hs Hlog. destruct (served_metrics_agree s Hs) as [Hm Hgt].
  split; [now apply Hm | now apply Hgt].
Qed.

Lemma served_two_accepts : served two_accepts.
Proof.
  apply served_accept; [apply served_accept; [apply served_new|]|];
    vm_compute; reflexivity.
Qed.

Lemma metrics_follow_the_table_witness :
  let log := [IncrementCounter "clients_connected_total"; SetGauge "clients_active" 1] in
  Z.of_nat (count_increments "clients_connected_total" log) -
  Z.of_nat (count_increments "clients_disconnected_total" log) =
    Z.of_nat (size (clients_ two_accepts)) /\
  match last_gauge "clients_active" log with
  | Some v => v = Z.of_nat (size (clients_ two_accepts))
  | None => size (clients_ two_accepts) = O
  end.
Proof.
  refine (metrics_follow_the_table two_accepts _ served_two_accepts _).
  vm_compute. reflexivity.
Defined.

Lemma omap_nothing {A B} (f : A -> option B) (l : list A) :
  (forall x, x ∈ l -> f x = None) -> omap f l = [].
Proof.
  induction l as [|x l IH]; intros Hf; simpl; [reflexivity|].
  rewrite (Hf x) by left. apply IH. intros y Hy. apply Hf. now right.
Qed.

Lemma length_omap_le {A B} (f : A -> option B) (l : list A) :
  (length (omap f l) <= length l)%nat.
Proof.
  induction l as [|x l IH]; [simpl; lia|].
  change (omap f (x :: l))
    with (match f x with Some y => y :: omap f l | None => omap f l end).
  destruct (f x); cbn [length]; lia.
Qed.

Lemma length_omap_all {A B} (f : A -> option B) (l : list A) :
  (forall x, x ∈ l -> is_Some (f x)) -> length (omap f l) = length l.
Proof.
  induction l as [|x l IH]; intros Hf; [reflexivity|].
  change (omap f (x :: l))
    with (match f x with Some y => y :: omap f l | None => omap f l end).
  destruct (Hf x) as [y Hy]; [left|]. rewrite Hy. cbn [length]. f_equal.
  apply IH. intros z Hz. apply Hf. now right.
Qed.

Lemma cleanup_leaves_connected s i c :
  clients_ (cleanupDisconnectedClients s) !! i = Some c -> isConnected c = true.
Proof.
  rewrite cleanup_lookup. destruct (clients_ s !! i) as [c'|]; [|discriminate].
  destruct (isConnected c') eqn:Hc; [|discriminate]. now intros [= <-].
Qed.

Lemma cleanup_total_sent s :
  total_messages_sent_ (cleanupDisconnectedClients s) = total_messages_sent_ s.
Proof.
  unfold cleanupDisconnectedClients.
  generalize (disconnected_clients s). intros ids. revert s.
  induction ids as [|k ids IH]; intros s; simpl; [reflexivity|].
  rewrite IH. apply removeClient_total_sent.
Qed.

(** X4. The cleanup pass is idempotent: a second pass right after the first
    finds nothing to remove and leaves the whole server, metrics included,
    as the first pass left it; every connection that is left is connected. *)
Theorem cleanup_twice (s : Server) :
  cleanupDisconnectedClients (cleanupDisconnectedClients s) =
    cleanupDisconnectedClients s /\
  disconnected_clients (cleanupDisconnectedClients s) = [] /\
  (forall i c, clients_ (cleanupDisconnectedClients s) !! i = Some c ->
     isConnected c = true).
Proof.
  assert (E : disconnected_clients (cleanupDisconnectedClients s) = []).
  { unfold disconnected_clients at 1. apply omap_nothing.
    intros [k c] Hin. apply elem_of_map_to_list in Hin. simpl.
    now rewrite (cleanup_leaves_connected s k c Hin). }
  split; [|split; [exact E | apply cleanup_leaves_connected]].
  unfold cleanupDisconnectedClients at 1. rewrite E. reflexivity.
Qed.

(** X5. Removing a connection, by [removeClient] or by the cleanup pass,
    touches neither the jobs waiting in the thread pool nor the counter of
    sent messages: a message already enqueued for a connection stays
    enqueued when the connection leaves the table. *)
Theorem removal_keeps_enqueued_jobs (client_id : Z) (s : Server) :
  thread_pool_ (removeClient client_id s) = thread_pool_ s /\
  total_messages_sent_ (removeClient client_id s) = total_messages_sent_ s /\
  thread_pool_ (cleanupDisconnectedClients s) = thread_pool_ s /\
  total_messages_sent_ (cleanupDisconnectedClients s) = total_messages_sent_ s /\
  (forall message,
     thread_pool_ (removeClient client_id (sendToClient client_id message s).2) =
       thread_pool_ (sendToClient client_id message s).2).
Proof.
  split; [apply removeClient_thread_pool|].
  split; [apply removeClient_total_sent|].
  split; [apply cleanup_thread_pool|].
  split; [apply cleanup_total_sent|].
  intros message. apply removeClient_thread_pool.
Qed.

(** X6. Registering under a free id and removing again gives the table
    back, and in between the connection is found under its id and the count
    is one higher. Registering under an id that is taken replaces the
    entry and keeps the count, yet [clients_connected_total] is incremented
    all the same. *)
Theorem addClient_then_removeClient (c : ClientConnection) (s : Server) :
  getClient (getId c) (addClient (Some c) s) = Some c /\
  (clients_ s !! getId c = None ->
     clients_ (removeClient (getId c) (addClient (Some c) s)) = clients_ s /\
     getConnectedClientsCount (addClient (Some c) s) =
       S (getConnectedClientsCount s)) /\
  (forall old log,
     clients_ s !! getId c = Some old -> metrics_ s = Some log ->
     getConnectedClientsCount (addClient (Some c) s) = getConnectedClientsCount s /\
     exists log',
       metrics_ (addClient (Some c) s) = Some log' /\
       count_increments "clients_connected_total" log' =
         S (count_increments "clients_connected_total" log)).
Proof.
  unfold getClient, getConnectedClientsCount. rewrite addClient_clients.
  split; [apply lookup_insert_eq|]. split.
  - intros Hn. rewrite removeClient_clients, addClient_clients.
    split; [|now apply map_size_insert_None].
    rewrite delete_insert_eq. now apply delete_id.
  - intros old log Ho Hlog. split; [apply map_size_insert_Some; eauto|].
    eexists. split.
    + simpl. rewrite Hlog. reflexivity.
    + rewrite count_increments_app. simpl. lia.
Qed.

Lemma addClient_then_removeClient_witness :
  (clients_ (removeClient (getId alice_again) (addClient (Some alice_again) alice_alone)) =
     clients_ alice_alone /\
   getConnectedClientsCount (addClient (Some alice_again) alice_alone) =
     S (getConnectedClientsCount alice_alone)) /\
  (getConnectedClientsCount (addClient (Some alice_first) alice_alone) =
     getConnectedClientsCount alice_alone /\
   exists log',
     metrics_ (addClient (Some alice_first) alice_alone) = Some log' /\
     count_increments "clients_connected_total" log' =
       S (count_increments "clients_connected_total"
            [IncrementCounter "clients_connected_total"; SetGauge "clients_active" 1])).
Proof.
  split.
  - refine (proj1 (proj2 (addClient_then_removeClient alice_again alice_alone)) _).
    vm_compute. reflexivity.
  - refine (proj2 (proj2 (addClient_then_removeClient alice_first alice_alone))
              alice_first _ _ _); vm_compute; reflexivity.
Defined.

Lemma broadcast_tasks_elem message sender_id s t :
  t ∈ broadcast_tasks message sender_id s <->
  exists k, clients_ s !! k = Some (task_client t) /\ k <> sender_id /\
            isAuthenticated (task_client t) = true /\ task_message t = message.
Proof.
  unfold broadcast_tasks. rewrite list_elem_of_omap. split.
  - intros ([k c] & Hin & Hf). apply elem_of_map_to_list in Hin. simpl in Hf.
    destruct (k =? sender_id) eqn:Hk; simpl in Hf; [discriminate|].
    destruct (isAuthenticated c) eqn:Ha; [|discriminate].
    injection Hf as <-. simpl. exists k. apply Z.eqb_neq in Hk. auto.
  - intros (k & Hl & Hk & Ha & Hm). exists (k, task_client t). split.
    + now apply elem_of_map_to_list.
    + simpl. apply Z.eqb_neq in Hk. rewrite Hk, Ha. simpl.
      destruct t as [tc tm]. simpl in *. now subst.
Qed.

(** X7. A broadcast enqueues a job, carrying the message, for exactly the
    connections that are authenticated and filed under another id than the
    sender's, after the jobs already waiting; so never more jobs than the
    table has entries, and none for a connection that is still connecting,
    authenticating or on its way out. *)
Theorem broadcast_recipients (message : string) (sender_id : Z) (s : Server) :
  thread_pool_ (broadcastMessage message sender_id s) =
    thread_pool_ s ++ broadcast_tasks message sender_id s /\
  (forall t, t ∈ broadcast_tasks message sender_id s <->
     exists k, clients_ s !! k = Some (task_client t) /\ k <> sender_id /\
               state_ (task_client t) = AUTHENTICATED /\ task_message t = message) /\
  (length (broadcast_tasks message sender_id s) <= size (clients_ s))%nat /\
  clients_ (broadcastMessage message sender_id s) = clients_ s.
Proof.
  split; [reflexivity|]. split; [|split; [|reflexivity]].
  - intros t. rewrite broadcast_tasks_elem.
    assert (Ha : isAuthenticated (task_client t) = true <->
                 state_ (task_client t) = AUTHENTICATED).
    { unfold isAuthenticated. destruct (state_ (task_client t));
        split; intros E; try reflexivity; discriminate E. }
    split; intros (k & Hl & Hk & Hs & Hm); exists k; rewrite ?Ha in *; tauto.
  - unfold broadcast_tasks. rewrite <- length_map_to_list. apply length_omap_le.
Qed.

(** X8. When the sender id is not zero and no connection is filed under it,
    a broadcast to a table of authenticated connections enqueues one job
    for each of them but adds one less to the counter of sent messages; on
    an empty table the counter goes down by one, and from 0 it wraps to
    2^64 - 1. *)
Theorem broadcast_from_unregistered_sender (message : string) (sender_id : Z)
    (s : Server) :
  sender_id <> 0 -> clients_ s !! sender_id = None ->
  (forall i c, clients_ s !! i = Some c -> isAuthenticated c = true) ->
  length (broadcast_tasks message sender_id s) = size (clients_ s) /\
  total_messages_sent_ (broadcastMessage message sender_id s) =
    wrap64 (total_messages_sent_ s + Z.of_nat (size (clients_ s)) - 1) /\
  (clients_ s = ∅ -> total_messages_sent_ s = 0 ->
     total_messages_sent_ (broadcastMessage message sender_id s) = two64 - 1).
Proof.
  intros Hs Hn Hall.
  assert (Ht : total_messages_sent_ (broadcastMessage message sender_id s) =
               wrap64 (total_messages_sent_ s + Z.of_nat (size (clients_ s)) - 1)).
  { simpl. unfold clients_active. apply Z.eqb_neq in Hs. rewrite Hs.
    rewrite wrap64_add_idemp. f_equal. lia. }
  split; [|split; [exact Ht|]].
  - unfold broadcast_tasks. rewrite <- length_map_to_list. apply length_omap_all.
    intros [k c] Hin. apply elem_of_map_to_list in Hin. simpl.
    assert (Hk : k <> sender_id) by congruence. apply Z.eqb_neq in Hk.
    rewrite Hk, (Hall k c Hin). simpl. eauto.
  - intros He H0. rewrite Ht, He, H0, map_size_empty. reflexivity.
Qed.

Lemma broadcast_from_unregistered_sender_witness :
  length (broadcast_tasks "hi" 9 alice_alone) = size (clients_ alice_alone) /\
  total_messages_sent_ (broadcastMessage "hi" 9 alice_alone) =
    wrap64 (total_messages_sent_ alice_alone + Z.of_nat (size (clients_ alice_alone)) - 1) /\
  total_messages_sent_ (broadcastMessage "hi" 9 (new_server false)) = two64 - 1.
Proof.
  split; [|split].
  - refine (proj1 (broadcast_from_unregistered_sender "hi" 9 alice_alone _ _ _)).
    + discriminate.
    + vm_compute. reflexivity.
    + intros i c. unfold alice_alone. rewrite addClient_clients. simpl.
      destruct (decide (getId alice_first = i)) as [<-|Hne].
      * rewrite lookup_insert_eq. intros [= <-]. reflexivity.
      * rewrite lookup_insert_ne by exact Hne. rewrite lookup_empty. discriminate.
  - refine (proj1 (proj2 (broadcast_from_unregistered_sender "hi" 9 alice_alone _ _ _))).
    + discriminate.
    + vm_compute. reflexivity.
    + intros i c. unfold alice_alone. rewrite addClient_clients. simpl.
      destruct (decide (getId alice_first = i)) as [<-|Hne].
      * rewrite lookup_insert_eq. intros [= <-]. reflexivity.
      * rewrite lookup_insert_ne by exact Hne. rewrite lookup_empty. discriminate.
  - refine (proj2 (proj2 (broadcast_from_unregistered_sender "hi" 9 (new_server false)
                            _ _ _)) _ _).
    + discriminate.
    + reflexivity.
    + intros i c. simpl. rewrite lookup_empty. discriminate.
    + reflexivity.
    + reflexivity.
Defined.

End ServingFacts.

(** ** Life cycle of the server *)

Module LifecycleFacts.
Import Registry Process Lifecycle RegistryFacts.

Lemma stop_not_running st : running_ st = false -> stop st = st.
Proof. unfold stop. now intros ->. Qed.


Lemma stop_keeps_shutdown_flag st :
  shutdown_requested_ (stop st) = shutdown_requested_ st.
Proof. unfold stop. now destruct (running_ st). Qed.


(** X10. When [start()] fails with an exception, the [stop()] of its handler
    does nothing, because [running_] is set only at the very end of
    [start()]: the server is still not running, its table and the list of
    disconnected connections are as before, and a socket manager that had
    been started is left started. *)
Theorem failed_start_is_not_undone (env : StartEnvironment) (st : ServerState)
    (t : Thrown) :
  (start env st).1 = Throws t ->
  running_ st = false /\
  running_ (start env st).2 = false /\
  server (start env st).2 = server st /\
  disconnect_calls (start env st).2 = disconnect_calls st /\
  threads_live (start env st).2 = threads_live st /\
  (socket_manager_start env = true -> socket_manager_live (start env st).2 = true).
Proof.
  unfold start. destruct (running_ st) eqn:Hr; [discriminate|].
  assert (Hstop : forall st', running_ st' = false -> stop st' = st')
    by apply stop_not_running.
  destruct (socket_manager_start env) eqn:Hs; simpl.
  - destruct (event_loop_start env) as [[]|t1].
    + destruct (create_threads env) as [[]|t2]; [discriminate|].
      intros _. destruct t2; simpl; rewrite ?Hstop by exact Hr;
        simpl; repeat split; auto.
    + intros _. destruct t1; simpl; rewrite ?Hstop by exact Hr;
        simpl; repeat split; auto.
  - intros _. rewrite Hstop by exact Hr. repeat split; auto. discriminate.
Qed.


Lemma failed_start_is_not_undone_witness :
  running_ (initialized true) = false /\
  running_ (start event_loop_throws (initialized true)).2 = false /\
  server (start event_loop_throws (initialized true)).2 = server (initialized true) /\
  disconnect_calls (start event_loop_throws (initialized true)).2 =
    disconnect_calls (initialized true) /\
  threads_live (start event_loop_throws (initialized true)).2 =
    threads_live (initialized true) /\
  (socket_manager_start event_loop_throws = true ->
   socket_manager_live (start event_loop_throws (initialized true)).2 = true).
Proof.
  refine (failed_start_is_not_undone event_loop_throws (initialized true) StdException _).
  reflexivity.
Defined.

Lemma start_keeps_shutdown_flag env st :
  shutdown_requested_ (start env st).2 = shutdown_requested_ st.
Proof.
  unfold start. destruct (running_ st) eqn:Hr; [reflexivity|].
  destruct (socket_manager_start env); simpl.
  - destruct (event_loop_start env) as [[]|t1].
    + destruct (create_threads env) as [[]|t2]; [reflexivity|].
      destruct t2; simpl; rewrite ?stop_keeps_shutdown_flag; reflexivity.
    + destruct t1; simpl; rewrite ?stop_keeps_shutdown_flag; reflexivity.
  - apply stop_keeps_shutdown_flag.
Qed.

Lemma life_step_keeps_shutdown_flag st st' :
  life_step st st' -> shutdown_requested_ st = true -> shutdown_requested_ st' = true.
Proof.
  intros Hstep Hf. destruct Hstep.
  - now rewrite start_keeps_shutdown_flag.
  - now rewrite stop_keeps_shutdown_flag.
  - unfold shutdown. now rewrite stop_keeps_shutdown_flag.
  - unfold accept_once. destruct (accepting st); [|exact Hf].
    destruct accepted as [sock|t]; [|exact Hf].
    destruct (0 <=? sock); exact Hf.
  - unfold cleanup_once. destruct (running_ st); exact Hf.
  - unfold metrics_once. destruct (running_ st); exact Hf.
  - exact Hf.
Qed.

Lemma life_steps_keep_shutdown_flag st st' :
  life_steps st st' -> shutdown_requested_ st = true -> shutdown_requested_ st' = true.
Proof.
  induction 1 as [st|st st' st'' _ IH Hstep]; intros Hf; [exact Hf|].
  apply (life_step_keeps_shutdown_flag st' st'' Hstep). now apply IH.
Qed.

(** X11. A shutdown is final: no operation resets [shutdown_requested_], so
    whatever is done after [shutdown()], another [start()] included, the
    accept loop does not run and a turn of it accepts nothing. *)
Theorem no_accept_after_shutdown (st st' : ServerState) :
  life_steps (shutdown st) st' ->
  shutdown_requested_ st' = true /\
  accepting st' = false /\
  (forall accepted ok, accept_once accepted ok st' = st') /\
  (forall env, accepting (start env st').2 = false).
Proof.
  intros Hsteps.
  assert (H0 : shutdown_requested_ (shutdown st) = true)
    by (unfold shutdown; now rewrite stop_keeps_shutdown_flag).
  pose proof (life_steps_keep_shutdown_flag _ _ Hsteps H0) as Hf.
  assert (Ha : accepting st' = false)
    by (unfold accepting; rewrite Hf; apply andb_false_r).
  split; [exact Hf|]. split; [exact Ha|]. split.
  - intros accepted ok. unfold accept_once. now rewrite Ha.
  - intros env. unfold accepting. rewrite start_keeps_shutdown_flag, Hf.
    apply andb_false_r.
Qed.

Lemma no_accept_after_shutdown_witness :
  let st' := (start start_succeeds (shutdown running_with_two)).2 in
  running_ st' = true /\
  shutdown_requested_ st' = true /\
  accepting st' = false /\
  (forall accepted ok, accept_once accepted ok st' = st') /\
  (forall env, accepting (start env st').2 = false).
Proof.
  split; [reflexivity|].
  refine (no_accept_after_shutdown running_with_two _ _).
  eapply life_steps_step; [apply life_steps_refl | apply life_start].
Defined.

End LifecycleFacts.

(** ** Message formatting of the logger *)

Module LoggingFacts.
Import Logging.

Lemma substring_whole s : substring 0 (String.length s) s = s.
Proof. induction s as [|c s IH]; simpl; [reflexivity | now rewrite IH]. Qed.

Lemma substring_prefix a b : substring 0 (String.length a) (a +:+ b) = a.
Proof.
  induction a as [|c a IH]; simpl.
  - now destruct b.
  - now rewrite IH.
Qed.

Lemma length_append a b :
  String.length (a +:+ b) = (String.length a + String.length b)%nat.
Proof. induction a as [|c a IH]; simpl; [reflexivity | now rewrite IH]. Qed.

Lemma substr_from_append a b : substr_from (String.length a) (a +:+ b) = b.
Proof.
  unfold substr_from. rewrite length_append.
  replace (String.length a + String.length b - String.length a)%nat
    with (String.length b) by lia.
  induction a as [|c a IH]; simpl; [apply substring_whole | exact IH].
Qed.

Lemma append_assoc a b c : (a +:+ b) +:+ c = a +:+ (b +:+ c).
Proof.
  induction a as [|x a IH]; [reflexivity|].
  change (String x ((a +:+ b) +:+ c) = String x (a +:+ (b +:+ c))).
  f_equal. exact IH.
Qed.

Lemma find_placeholder_cons c d rest :
  find_placeholder (String c (String d rest)) =
    if Ascii.eqb c "{" && Ascii.eqb d "}" then Some O
    else option_map S (find_placeholder (String d rest)).
Proof. reflexivity. Qed.

(** The first placeholder of [pre +:+ "{}" +:+ post] is right after [pre]
    when [pre] holds none. *)
Lemma find_placeholder_after pre post :
  find_placeholder pre = None ->
  find_placeholder (pre +:+ "{}" +:+ post) = Some (String.length pre).
Proof.
  induction pre as [|c pre IH]; intros Hn.
  - reflexivity.
  - destruct pre as [|d pre'].
    + change (find_placeholder (String c (String "{" (String "}" post))) = Some 1%nat).
      rewrite find_placeholder_cons. destruct (Ascii.eqb c "{"); reflexivity.
    + rewrite find_placeholder_cons in Hn.
      change (find_placeholder (String c (String d (pre' +:+ "{}" +:+ post))) =
              Some (S (String.length (String d pre')))).
      rewrite find_placeholder_cons.
      destruct (Ascii.eqb c "{" && Ascii.eqb d "}"); [discriminate Hn|].
      destruct (find_placeholder (String d pre')) eqn:E; [discriminate Hn|].
      change (String d (pre' +:+ "{}" +:+ post))
        with (String d pre' +:+ "{}" +:+ post).
      rewrite IH by reflexivity. reflexivity.
Qed.

Lemma find_placeholder_none_count format :
  find_placeholder format = None -> count_placeholders format = O.
Proof.
  induction format as [|c rest IH]; [reflexivity|].
  cbn [find_placeholder count_placeholders].
  destruct rest as [|d rest']; [reflexivity|].
  destruct (Ascii.eqb c "{" && Ascii.eqb d "}"); [discriminate|].
  destruct (find_placeholder (String d rest')) eqn:E; [discriminate|].
  intros _. now apply IH.
Qed.

Lemma find_placeholder_some_count format pos :
  find_placeholder format = Some pos ->
  count_placeholders format = S (count_placeholders (substr_from (pos + 2) format)).
Proof.
  revert pos. induction format as [|c rest IH]; intros pos; [discriminate|].
  cbn [find_placeholder count_placeholders].
  destruct rest as [|d rest']; [discriminate|].
  destruct (Ascii.eqb c "{" && Ascii.eqb d "}").
  - intros [= <-]. unfold substr_from. cbn. rewrite Nat.sub_0_r.
    now rewrite substring_whole.
  - destruct (find_placeholder (String d rest')) as [p|] eqn:E; [|discriminate].
    intros [= <-]. rewrite (IH p eq_refl). unfold substr_from. reflexivity.
Qed.

Lemma substr_from_after_placeholder pre post :
  substr_from (String.length pre + 2) (pre +:+ "{}" +:+ post) = post.
Proof.
  replace (String.length pre + 2)%nat with (String.length (pre +:+ "{}"))
    by (rewrite length_append; reflexivity).
  rewrite <- (append_assoc pre "{}" post). apply substr_from_append.
Qed.

(** X12. [formatString] fills the placeholders from left to right and never
    looks into what it has written: with no placeholder in [pre], the
    format [pre{}post] and the arguments [value, rest...] give [pre],
    then [value] as it is (even if it contains a placeholder), then [post]
    formatted with the remaining arguments. When the arguments run out the
    rest of the format, placeholders included, is written as it is. *)
Theorem formatString_fills_first_placeholder (pre post value : string)
    (rest : list string) :
  find_placeholder pre = None ->
  formatString (pre +:+ "{}" +:+ post) (value :: rest) =
    pre +:+ value +:+ formatString post rest /\
  formatString (pre +:+ "{}" +:+ post) [value] = pre +:+ value +:+ post.
Proof.
  intros Hn.
  assert (E : forall args,
    formatString (pre +:+ "{}" +:+ post) (value :: args) =
      pre +:+ value +:+ formatString post args).
  { intros args. unfold formatString. cbn [formatStringImpl].
    rewrite (find_placeholder_after pre post Hn), substring_prefix.
    rewrite substr_from_after_placeholder. reflexivity. }
  split; [apply E | rewrite E; reflexivity].
Qed.

Lemma formatString_fills_first_placeholder_witness :
  formatString ("Client " +:+ "{}" +:+ " connected. Total clients: {}") ["{}"; "3"] =
    "Client " +:+ "{}" +:+ formatString " connected. Total clients: {}" ["3"] /\
  formatString ("Client " +:+ "{}" +:+ " connected. Total clients: {}") ["{}"] =
    "Client " +:+ "{}" +:+ " connected. Total clients: {}".
Proof.
  refine (formatString_fills_first_placeholder "Client "
            " connected. Total clients: {}" _ _ _).
  reflexivity.
Defined.

(** X13. Arguments beyond the number of placeholders are dropped without a
    trace: the result is the one the first [count_placeholders format]
    arguments give, and a format without placeholder comes out unchanged
    whatever the arguments. *)
Theorem formatString_drops_surplus_arguments (args : list string) :
  forall format,
    formatString format args =
      formatString format (take (count_placeholders format) args) /\
    (find_placeholder format = None -> formatString format args = format).
Proof.
  unfold formatString.
  induction args as [|value rest IH]; intros format.
  - rewrite take_nil. split; reflexivity.
  - cbn [formatStringImpl].
    destruct (find_placeholder format) as [pos|] eqn:E.
    + split; [|discriminate].
      rewrite (find_placeholder_some_count format pos E). cbn [take formatStringImpl].
      rewrite E. now rewrite (proj1 (IH (substr_from (pos + 2) format))) at 1.
    + split; [|reflexivity].
      rewrite (find_placeholder_none_count format E). reflexivity.
Qed.

Lemma formatString_drops_surplus_arguments_witness :
  formatString "Server stopped" ["1"; "2"] =
    formatString "Server stopped"
      (take (count_placeholders "Server stopped") ["1"; "2"]) /\
  formatString "Server stopped" ["1"; "2"] = "Server stopped"%string.
Proof.
  split.
  - exact (proj1 (formatString_drops_surplus_arguments ["1"; "2"]%string
                    "Server stopped")).
  - refine (proj2 (formatString_drops_surplus_arguments ["1"; "2"]%string
                     "Server stopped") _).
    reflexivity.
Defined.

End LoggingFacts.

(** ** More on the exit of the server process *)

Module ProcessMoreFacts.
Import Process ProcessMore.

Lemma parse_args_aborted env : forall n args o,
  (length args <= n)%nat ->
  parse_args env args o = Stop Aborted ->
  exists text, text ∈ args /\ stoi env text = None.
Proof.
  induction n as [|n IH]; intros [|arg rest] o Hlen; simpl in *;
    try discriminate; try lia.
  assert (Hrest : forall x rest' o',
            rest = x :: rest' ->
            parse_args env rest' o' = Stop Aborted ->
            exists text, text ∈ arg :: rest /\ stoi env text = None).
  { intros x rest' o' -> Hp. destruct (IH rest' o') as (t & Ht & Hs);
      [simpl in *; lia | exact Hp |].
    exists t. split; [|exact Hs]. right. now right. }
  destruct (is_flag arg "-h" "--help"); [discriminate|].
  destruct (is_flag arg "-v" "--version"); [discriminate|].
  destruct (is_flag arg "-c" "--config").
  { destruct rest as [|x rest']; [discriminate|]. now apply (Hrest x rest'). }
  destruct (is_flag arg "-p" "--port").
  { destruct rest as [|x rest']; [discriminate|].
    destruct (stoi env x) eqn:Hx; [now apply (Hrest x rest')|].
    intros _. exists x. split; [right; left | exact Hx]. }
  destruct (is_flag arg "-t" "--threads").
  { destruct rest as [|x rest']; [discriminate|].
    destruct (stoi env x) eqn:Hx; [now apply (Hrest x rest')|].
    intros _. exists x. split; [right; left | exact Hx]. }
  destruct (is_flag arg "-l" "--log-level").
  { destruct rest as [|x rest']; [discriminate|]. now apply (Hrest x rest'). }
  destruct (is_flag arg "-d" "--daemon"); [|discriminate].
  intros Hp. destruct (IH rest _ ltac:(lia) Hp) as (t & Ht & Hs).
  exists t. split; [now right | exact Hs].
Qed.

Lemma parse_args_exit_0 env : forall n args o,
  (length args <= n)%nat ->
  parse_args env args o = Stop (ExitCode 0) ->
  exists arg, arg ∈ args /\ asks_for_help_or_version arg = true.
Proof.
  induction n as [|n IH]; intros [|arg rest] o Hlen; simpl in *;
    try discriminate; try lia.
  assert (Hrest : forall x rest' o',
            rest = x :: rest' ->
            parse_args env rest' o' = Stop (ExitCode 0) ->
            exists a, a ∈ arg :: rest /\ asks_for_help_or_version a = true).
  { intros x rest' o' -> Hp. destruct (IH rest' o') as (t & Ht & Hs);
      [simpl in *; lia | exact Hp |].
    exists t. split; [|exact Hs]. right. now right. }
  unfold asks_for_help_or_version.
  destruct (is_flag arg "-h" "--help") eqn:Hh.
  { intros _. exists arg. split; [left|]. now rewrite Hh. }
  destruct (is_flag arg "-v" "--version") eqn:Hv.
  { intros _. exists arg. split; [left|]. now rewrite Hh, Hv. }
  destruct (is_flag arg "-c" "--config").
  { destruct rest as [|x rest']; [discriminate|]. now apply (Hrest x rest'). }
  destruct (is_flag arg "-p" "--port").
  { destruct rest as [|x rest']; [discriminate|].
    destruct (stoi env x); [now apply (Hrest x rest') | discriminate]. }
  destruct (is_flag arg "-t" "--threads").
  { destruct rest as [|x rest']; [discriminate|].
    destruct (stoi env x); [now apply (Hrest x rest') | discriminate]. }
  destruct (is_flag arg "-l" "--log-level").
  { destruct rest as [|x rest']; [discriminate|]. now apply (Hrest x rest'). }
  destruct (is_flag arg "-d" "--daemon"); [|discriminate].
  intros Hp. destruct (IH rest _ ltac:(lia) Hp) as (t & Ht & Hs).
  exists t. split; [now right | exact Hs].
Qed.

Lemma parse_args_never_running env : forall n args o,
  (length args <= n)%nat -> parse_args env args o <> Stop Running.
Proof.
  induction n as [|n IH]; intros [|arg rest] o Hlen; simpl in *;
    try discriminate; try lia.
  destruct (is_flag arg "-h" "--help"); [discriminate|].
  destruct (is_flag arg "-v" "--version"); [discriminate|].
  destruct (is_flag arg "-c" "--config").
  { destruct rest as [|x rest']; [discriminate|]. apply IH. simpl in *. lia. }
  destruct (is_flag arg "-p" "--port").
  { destruct rest as [|x rest']; [discriminate|].
    destruct (stoi env x); [apply IH; simpl in *; lia | discriminate]. }
  destruct (is_flag arg "-t" "--threads").
  { destruct rest as [|x rest']; [discriminate|].
    destruct (stoi env x); [apply IH; simpl in *; lia | discriminate]. }
  destruct (is_flag arg "-l" "--log-level").
  { destruct rest as [|x rest']; [discriminate|]. apply IH. simpl in *. lia. }
  destruct (is_flag arg "-d" "--daemon"); [apply IH; lia | discriminate].
Qed.

(** X14. The process is aborted by an uncaught exception only when the
    text given for a port or a thread count is not a number for
    [std::stoi]: if [main] ends that way, one of the arguments is such a
    text. The argument loop is the only part of [main] outside the [try]
    block. *)
Theorem abort_only_on_bad_number (env : Environment) (args : list string) :
  main env args = Aborted ->
  exists text, text ∈ args /\ stoi env text = None.
Proof.
  unfold main. destruct (parse_args env args default_options) as [o|r] eqn:Hp.
  - unfold run_server.
    destruct (setup_logging env o); [|discriminate].
    destruct (loadFromFile env (config_file o)) as [[|]|]; try discriminate.
    destruct (server_initialize env o) as [[|]|]; try discriminate.
    destruct (signal_while_starting env); [discriminate|].
    destruct (server_start env); [|discriminate].
    destruct (main_loop env); discriminate.
  - intros ->. exact (parse_args_aborted env (length args) args _ (le_n _) Hp).
Qed.

Lemma abort_only_on_bad_number_witness :
  exists text, text ∈ ["-d"; "--port"; "eighty"]%string /\ stoi no_numbers text = None.
Proof.
  refine (abort_only_on_bad_number no_numbers ["-d"; "--port"; "eighty"]%string _).
  reflexivity.
Defined.

(** X15. The server keeps running only after the whole startup went
    through with the options of the command line and no handled signal
    arrived while it started. The process ends with code 0 only when the
    help or the version was asked for, or when a handled signal arrived
    after the handlers were installed, that is after the configuration had
    been loaded and the server initialised: either while the server was
    starting, or in the main loop of a server that had started. *)
Theorem running_or_exit_0_needs_startup (env : Environment) (args : list string) :
  (main env args = Running ->
     exists o, parse_args env args default_options = Continue o /\
       loadFromFile env (config_file o) = Returns true /\
       server_initialize env o = Returns true /\
       signal_while_starting env = None /\
       server_start env = Returns tt /\
       main_loop env = NeverEnds) /\
  (main env args = ExitCode 0 ->
     (exists arg, arg ∈ args /\ asks_for_help_or_version arg = true) \/
     (exists o signal, parse_args env args default_options = Continue o /\
        loadFromFile env (config_file o) = Returns true /\
        server_initialize env o = Returns true /\
        (signal_while_starting env = Some signal \/
         signal_while_starting env = None /\
         server_start env = Returns tt /\
         main_loop env = Signalled signal))).
Proof.
  unfold main. destruct (parse_args env args default_options) as [o|r] eqn:Hp.
  - unfold run_server.
    destruct (setup_logging env o); [|split; discriminate].
    destruct (loadFromFile env (config_file o)) as [[|]|] eqn:Hc;
      try (split; discriminate).
    destruct (server_initialize env o) as [[|]|] eqn:Hi; try (split; discriminate).
    destruct (signal_while_starting env) as [early|] eqn:He.
    { split; [discriminate|]. intros _. right. exists o, early.
      split; [reflexivity|]. split; [exact Hc|]. split; [exact Hi|]. now left. }
    destruct (server_start env) as [[]|] eqn:Hs; [|split; discriminate].
    destruct (main_loop env) as [signal|t|] eqn:Hl; split; try discriminate.
    + intros _. right. exists o, signal.
      split; [reflexivity|]. split; [exact Hc|]. split; [exact Hi|]. right.
      repeat split; assumption || reflexivity.
    + intros _. exists o. repeat split; assumption || reflexivity.
  - split; intros ->.
    + exfalso. exact (parse_args_never_running env (length args) args _ (le_n _) Hp).
    + left. exact (parse_args_exit_0 env (length args) args _ (le_n _) Hp).
Qed.

Lemma running_or_exit_0_needs_startup_witness :
  (exists o, parse_args (healthy_start NeverEnds) ["-d"]%string default_options =
               Continue o /\
     loadFromFile (healthy_start NeverEnds) (config_file o) = Returns true /\
     server_initialize (healthy_start NeverEnds) o = Returns true /\
     signal_while_starting (healthy_start NeverEnds) = None /\
     server_start (healthy_start NeverEnds) = Returns tt /\
     main_loop (healthy_start NeverEnds) = NeverEnds) /\
  ((exists arg, arg ∈ ["-d"]%string /\ asks_for_help_or_version arg = true) \/
   (exists o signal,
      parse_args interrupted_start ["-d"]%string default_options = Continue o /\
      loadFromFile interrupted_start (config_file o) = Returns true /\
      server_initialize interrupted_start o = Returns true /\
      (signal_while_starting interrupted_start = Some signal \/
       signal_while_starting interrupted_start = None /\
       server_start interrupted_start = Returns tt /\
       main_loop interrupted_start = Signalled signal))).
Proof.
  split.
  - refine (proj1 (running_or_exit_0_needs_startup (healthy_start NeverEnds)
                     ["-d"]%string) _).
    reflexivity.
  - refine (proj2 (running_or_exit_0_needs_startup interrupted_start
                     ["-d"]%string) _).
    reflexivity.
Defined.

End ProcessMoreFacts.

(** ** The login dialog *)

Module LoginFormFacts.
Import LoginForm.

Section Qt.
Variable trimmed : string -> string.
Variable toInt : string -> Z.

Lemma isEmpty_false text : isEmpty text = false <-> (0 < String.length text)%nat.
Proof. unfold isEmpty. rewrite Nat.eqb_neq. lia. Qed.

Lemma validateServer_ok f :
  validateServer trimmed toInt f = None <->
  (m_isAdvancedMode f = true ->
   (0 < String.length (trimmed (m_serverHostEdit f)))%nat /\
   1 <= toInt (m_serverPortEdit f) <= 65535).
Proof.
  unfold validateServer. destruct (m_isAdvancedMode f).
  - destruct (isEmpty (trimmed (m_serverHostEdit f))) eqn:Hh.
    + split; [discriminate|]. intros H. destruct (H eq_refl) as [Hl _].
      unfold isEmpty in Hh. apply Nat.eqb_eq in Hh. lia.
    + apply isEmpty_false in Hh.
      destruct ((toInt (m_serverPortEdit f) <=? 0) ||
                (65535 <? toInt (m_serverPortEdit f))) eqn:Hp.
      * split; [discriminate|]. intros H. destruct (H eq_refl) as [_ Hr].
        apply orb_true_iff in Hp. rewrite Z.leb_le, Z.ltb_lt in Hp. lia.
      * apply orb_false_iff in Hp. rewrite Z.leb_gt, Z.ltb_ge in Hp.
        split; [intros _ _; split; [exact Hh | lia] | reflexivity].
  - split; [intros _ H; discriminate H | reflexivity].
Qed.

(** X16. [validateForm] accepts a form exactly when, in login mode, the
    trimmed username has at least 3 characters and the password at least
    6; in register mode, the same for the registration fields, the two
    passwords are equal and the trimmed email is empty or acceptable; and,
    in advanced mode only, the trimmed host is not empty and the port is
    between 1 and 65535. Outside advanced mode host and port are not
    looked at. *)
Theorem validateForm_accepts (f : Form) :
  validateForm trimmed toInt f = None <->
  (if m_isLoginMode f then
     (3 <= String.length (trimmed (m_usernameEdit f)))%nat /\
     (MIN_PASSWORD_LENGTH <= String.length (m_passwordEdit f))%nat
   else
     (3 <= String.length (trimmed (m_regUsernameEdit f)))%nat /\
     (MIN_PASSWORD_LENGTH <= String.length (m_regPasswordEdit f))%nat /\
     m_regPasswordEdit f = m_regConfirmPasswordEdit f /\
     (trimmed (m_regEmailEdit f) = ""%string \/ m_regEmailEdit_acceptable f = true)) /\
  (m_isAdvancedMode f = true ->
   (0 < String.length (trimmed (m_serverHostEdit f)))%nat /\
   1 <= toInt (m_serverPortEdit f) <= 65535).
Proof.
  rewrite <- validateServer_ok. unfold validateForm, MIN_PASSWORD_LENGTH.
  destruct (m_isLoginMode f).
  - destruct (isEmpty (trimmed (m_usernameEdit f))) eqn:E1.
    { unfold isEmpty in E1. apply Nat.eqb_eq in E1.
      split; [discriminate | intros [[H _] _]; lia]. }
    destruct (String.length (trimmed (m_usernameEdit f)) <? 3)%nat eqn:E2.
    { apply Nat.ltb_lt in E2. split; [discriminate | intros [[H _] _]; lia]. }
    destruct (isEmpty (m_passwordEdit f)) eqn:E3.
    { unfold isEmpty in E3. apply Nat.eqb_eq in E3.
      split; [discriminate | intros [[_ H] _]; lia]. }
    destruct (String.length (m_passwordEdit f) <? 6)%nat eqn:E4.
    { apply Nat.ltb_lt in E4. split; [discriminate | intros [[_ H] _]; lia]. }
    apply Nat.ltb_ge in E2, E4. tauto.
  - destruct (isEmpty (trimmed (m_regUsernameEdit f))) eqn:E1.
    { unfold isEmpty in E1. apply Nat.eqb_eq in E1.
      split; [discriminate | intros [[H _] _]; lia]. }
    destruct (String.length (trimmed (m_regUsernameEdit f)) <? 3)%nat eqn:E2.
    { apply Nat.ltb_lt in E2. split; [discriminate | intros [[H _] _]; lia]. }
    destruct (isEmpty (m_regPasswordEdit f)) eqn:E3.
    { unfold isEmpty in E3. apply Nat.eqb_eq in E3.
      split; [discriminate | intros [(_ & H & _) _]; lia]. }
    destruct (String.length (m_regPasswordEdit f) <? 6)%nat eqn:E4.
    { apply Nat.ltb_lt in E4. split; [discriminate | intros [(_ & H & _) _]; lia]. }
    destruct (String.eqb (m_regPasswordEdit f) (m_regConfirmPasswordEdit f)) eqn:E5;
      simpl.
    2:{ apply String.eqb_neq in E5.
        split; [discriminate | intros [(_ & _ & H & _) _]; contradiction]. }
    apply String.eqb_eq in E5.
    destruct (isEmpty (trimmed (m_regEmailEdit f))) eqn:E6; simpl.
    + assert (Hem : trimmed (m_regEmailEdit f) = ""%string).
      { unfold isEmpty in E6. apply Nat.eqb_eq in E6.
        now destruct (trimmed (m_regEmailEdit f)). }
      apply Nat.ltb_ge in E2, E4. tauto.
    + assert (Hem : trimmed (m_regEmailEdit f) <> ""%string).
      { intros Hem. rewrite Hem in E6. discriminate E6. }
      apply Nat.ltb_ge in E2, E4.
      destruct (m_regEmailEdit_acceptable f); simpl.
      * tauto.
      * split; [discriminate|]. intros [(_ & _ & _ & [H|H]) _];
          [contradiction | discriminate].
Qed.

(** X17. A form that [validateForm] accepts is one for which
    [updateButtonStates] enables the buttons, unless a login is in
    progress: validation never succeeds on a form whose button is greyed
    out for being incomplete. *)
Theorem valid_form_has_enabled_buttons (f : Form) :
  validateForm trimmed toInt f = None ->
  updateButtonStates trimmed f = negb (m_loginInProgress f).
Proof.
  intros Hv. apply validateForm_accepts in Hv. destruct Hv as [Hv _].
  unfold updateButtonStates, isEmpty, MIN_PASSWORD_LENGTH in *.
  destruct (m_isLoginMode f).
  - destruct Hv as [H1 H2].
    rewrite (proj2 (Nat.eqb_neq _ 0)) by lia.
    rewrite (proj2 (Nat.eqb_neq (String.length (m_passwordEdit f)) 0)) by lia.
    reflexivity.
  - destruct Hv as (H1 & H2 & H3 & _). rewrite <- H3.
    rewrite (proj2 (Nat.eqb_neq _ 0)) by lia.
    rewrite (proj2 (Nat.eqb_neq (String.length (m_regPasswordEdit f)) 0)) by lia.
    reflexivity.
Qed.

(** X18. In login mode every [loginRequested] signal that [onLoginClicked]
    emits carries the trimmed username and the password of the getters,
    a username of at least 3 characters and a password of at least 6;
    in advanced mode it also carries a host that is not empty and a port
    between 1 and 65535. *)
Theorem login_request_is_validated (f : Form) (r : LoginRequest) :
  m_isLoginMode f = true ->
  onLoginClicked trimmed toInt f = Some r ->
  request_username r = getUsername trimmed f /\
  request_password r = getPassword f /\
  (3 <= String.length (request_username r))%nat /\
  (MIN_PASSWORD_LENGTH <= String.length (request_password r))%nat /\
  (m_isAdvancedMode f = true ->
   (0 < String.length (request_host r))%nat /\ 1 <= request_port r <= 65535).
Proof.
  intros Hm. unfold onLoginClicked, getUsername, getPassword.
  destruct (validateForm trimmed toInt f) eqn:Hv; [discriminate|].
  intros [= <-]. simpl. apply validateForm_accepts in Hv.
  rewrite Hm in *. tauto.
Qed.

End Qt.

Lemma validateForm_accepts_witness :
  validateForm demo_trimmed demo_toInt demo_login_form = None.
Proof.
  apply (proj2 (validateForm_accepts demo_trimmed demo_toInt demo_login_form)).
  vm_compute. repeat split; try lia; discriminate.
Defined.

Lemma valid_form_has_enabled_buttons_witness :
  updateButtonStates demo_trimmed demo_login_form =
    negb (m_loginInProgress demo_login_form).
Proof.
  refine (valid_form_has_enabled_buttons demo_trimmed demo_toInt demo_login_form _).
  reflexivity.
Defined.

Lemma login_request_is_validated_witness :
  let r := {| request_username := "alice"; request_password := "Secret!1";
              request_host := "localhost"; request_port := 4 |} in
  request_username r = getUsername demo_trimmed demo_login_form /\
  request_password r = getPassword demo_login_form /\
  (3 <= String.length (request_username r))%nat /\
  (MIN_PASSWORD_LENGTH <= String.length (request_password r))%nat /\
  (m_isAdvancedMode demo_login_form = true ->
   (0 < String.length (request_host r))%nat /\ 1 <= request_port r <= 65535).
Proof.
  refine (login_request_is_validated demo_trimmed demo_toInt demo_login_form _ _ _);
    reflexivity.
Defined.

End LoginFormFacts.
